(** * The playback queue of the bot: [Audio] and [AudioQueue] (src/audio.py)

    A shallow embedding of [src/audio.py].  Python objects of class [Audio]
    are mutable and shared by reference between the forward queue, the
    history and the current slot, so they live in a heap indexed by object
    identity; the deques hold references.  Methods are computations in a
    state-and-exception monad over the heap, the fields of the one
    [AudioQueue] object and the trace of the calls that leave the module
    (HTTP probe, track resolver, clock, logging, event bus).  An exception
    leaves the state as it is at the point where it is raised. *)

From stdpp Require Import gmap strings list pretty.
From Stdlib Require Import ZArith Lia.

Open Scope Z_scope.

(** ** Data *)

(** Identity of an [Audio] instance. *)
Definition ref := nat.

(** What the field [length] holds.  It is annotated [float], which Python
    does not enforce, and [refresh] stores whatever the resolver's
    dictionary has under ['length'].  A finite number is kept as a whole
    number of seconds; the other values are those [timedelta(seconds=...)]
    refuses: not-a-number, an infinity, and [None] or any other object that
    is not a number. *)
Inductive duration :=
| Seconds (s : Z)
| NaN
| Infinity
| NoNumber.

(** The dictionary [get_audio] returns for a resolved track. *)
Record Entry := mkEntry {
  entry_audio_url : string;
  entry_webpage_url : string;
  entry_title : string;
  entry_length : duration;
  entry_thumbnail : string
}.

(** [class Audio]: [author], [voice_channel] and [text_channel] are handles
    of the chat library, kept as opaque identifiers; [end_time] is a
    [datetime], kept as the number of seconds since [datetime.min]; it has
    no value until [set_end_time] runs ([field(init=False)]). *)
Module Audio.
Record t := mk {
    author : nat;
    voice_channel : nat;
    text_channel : nat;
    audio_url : string;
    webpage_url : string;
    title : string;
    length : duration;
    thumbnail : string;
    end_time : option Z
  }.

Definition set_audio_url (v : string) (a : t) : t :=
    mk (author a) (voice_channel a) (text_channel a) v (webpage_url a)
       (title a) (length a) (thumbnail a) (end_time a).
Definition set_webpage_url (v : string) (a : t) : t :=
    mk (author a) (voice_channel a) (text_channel a) (audio_url a) v
       (title a) (length a) (thumbnail a) (end_time a).
Definition set_title (v : string) (a : t) : t :=
    mk (author a) (voice_channel a) (text_channel a) (audio_url a)
       (webpage_url a) v (length a) (thumbnail a) (end_time a).
Definition set_length (v : duration) (a : t) : t :=
    mk (author a) (voice_channel a) (text_channel a) (audio_url a)
       (webpage_url a) (title a) v (thumbnail a) (end_time a).
Definition set_thumbnail (v : string) (a : t) : t :=
    mk (author a) (voice_channel a) (text_channel a) (audio_url a)
       (webpage_url a) (title a) (length a) v (end_time a).
Definition set_end_time (v : option Z) (a : t) : t :=
    mk (author a) (voice_channel a) (text_channel a) (audio_url a)
       (webpage_url a) (title a) (length a) (thumbnail a) v.

Definition blank : t := mk 0%nat 0%nat 0%nat "" "" "" (Seconds 0) "" None.
End Audio.

#[global] Instance Audio_inhabited : Inhabited Audio.t := populate Audio.blank.

(** A value handed to [append] / [append_left]: Python does not enforce the
    annotation [audio: Audio], and [restart_queue] passes [_current_audio],
    which may be [None]. *)
Inductive pyval :=
| PyNone
| PyAudio (a : ref)
| PyOther (tag : nat).

Definition of_slot (o : option ref) : pyval :=
  match o with Some a => PyAudio a | None => PyNone end.

(** ** Exceptions *)

(** The exceptions of the built-in operations the module uses ([deque.pop]
    and [deque.popleft], [timedelta], [datetime] arithmetic), and any other
    exception, by the name of its class. *)
Inductive exn :=
| IndexError
| OverflowError
| ValueError
| TypeError
| OtherException (name : string).

Inductive result (A : Type) :=
| Ok (a : A)
| Raise (e : exn).
Arguments Ok {A} a.
Arguments Raise {A} e.

(** ** The world outside the module *)

(** What [requests.head(url)] does: a response with a status code, one of
    the three exceptions [is_stale] catches ([MaxRetryError],
    [NewConnectionError], [ConnectionError]), or any other exception
    ([MissingSchema] for a URL without a scheme, [InvalidURL], ...), which
    [is_stale] does not catch. *)
Inductive head_result :=
| Response (status_code : Z)
| ConnectionFailure
| Uncaught (e : exn).

(** The collaborators, indexed by the number of calls and log lines made so
    far, so that the network and the clock may answer differently each time.
    [get_audio] is the track resolver of [youtube_client]: a dictionary with
    the five keys, or nothing.  [datetime_now] is the clock, in seconds
    since [datetime.min]. *)
Record Env := mkEnv {
  requests_head : nat -> string -> head_result;
  get_audio : nat -> string -> option Entry;
  datetime_now : nat -> Z
}.

Inductive event :=
| new_audio (a : ref)
| no_audio
| queue_update.

Inductive level := INFO | WARNING | ERROR.

(** Calls that leave the module, in the order they are made. *)
Inductive effect :=
| Head (url : string)
| GetAudio (query : string)
| Now
| Log (l : level) (msg : string)
| PostEvent (e : event).

Definition is_post (e : effect) : bool :=
  match e with PostEvent _ => true | _ => false end.

(** ** [datetime] and [timedelta]

    Both on one line of whole seconds: a [datetime] is the number of seconds
    since [datetime.min] (year 1), a [timedelta] a number of seconds.
    Python keeps both within fixed ranges and raises when a value leaves
    them. *)

(** [timedelta.min] and [timedelta.max]: 999999999 days either way. *)
Definition timedelta_min : Z := -86399999913600.
Definition timedelta_max : Z := 86399999999999.

(** [datetime.max], the last second of the year 9999. *)
Definition datetime_max : Z := 315537897599.

(** [timedelta(seconds=x)]: [OverflowError] for a number out of range and
    for an infinity, [ValueError] for not-a-number, [TypeError] for [None]
    and other objects. *)
Definition timedelta (seconds : duration) : result Z :=
  match seconds with
  | Seconds s =>
      if (timedelta_min <=? s) && (s <=? timedelta_max)
      then Ok s else Raise OverflowError
  | NaN => Raise ValueError
  | Infinity => Raise OverflowError
  | NoNumber => Raise TypeError
  end.

(** [t + delta] on a [datetime]: [OverflowError] when the date leaves the
    years 1 to 9999.  [t - delta] is [t + (- delta)]. *)
Definition datetime_add (t delta : Z) : result Z :=
  if (0 <=? t + delta) && (t + delta <=? datetime_max)
  then Ok (t + delta) else Raise OverflowError.

(** ** State: the [AudioQueue] object, the heap of [Audio] objects, the trace *)

Record State := mkState {
  max_queue_size : Z;
  max_previous_queue_size : Z;
  queue : list ref;
  previous_queue : list ref;
  _current_audio : option ref;
  heap : gmap ref Audio.t;
  trace : list effect
}.

Definition set_queue (q : list ref) (st : State) : State :=
  mkState (max_queue_size st) (max_previous_queue_size st) q
          (previous_queue st) (_current_audio st) (heap st) (trace st).
Definition set_previous_queue (p : list ref) (st : State) : State :=
  mkState (max_queue_size st) (max_previous_queue_size st) (queue st)
          p (_current_audio st) (heap st) (trace st).
Definition set__current_audio (c : option ref) (st : State) : State :=
  mkState (max_queue_size st) (max_previous_queue_size st) (queue st)
          (previous_queue st) c (heap st) (trace st).
Definition set_heap (h : gmap ref Audio.t) (st : State) : State :=
  mkState (max_queue_size st) (max_previous_queue_size st) (queue st)
          (previous_queue st) (_current_audio st) h (trace st).
Definition set_trace (tr : list effect) (st : State) : State :=
  mkState (max_queue_size st) (max_previous_queue_size st) (queue st)
          (previous_queue st) (_current_audio st) (heap st) tr.

(** [AudioQueue.__init__]. *)
Definition init (max_queue_size max_previous_queue_size : Z)
    (h : gmap ref Audio.t) : State :=
  mkState max_queue_size max_previous_queue_size [] [] None h [].

(** The defaults of [__init__]. *)
Definition default_max_queue_size : Z := 10000.
Definition default_max_previous_queue_size : Z := 100.

(** ** The monad: state, and the exceptions Python raises *)

Definition M (A : Type) : Type := State -> result A * State.

#[global] Instance M_ret : MRet M := λ A a st, (Ok a, st).
#[global] Instance M_bind : MBind M := λ A B f m st,
  match m st with
  | (Ok a, st') => f a st'
  | (Raise e, st') => (Raise e, st')
  end.

Definition get {A} (f : State -> A) : M A := λ st, (Ok (f st), st).
Definition modify (f : State -> State) : M unit := λ st, (Ok tt, f st).
Definition raise {A} (e : exn) : M A := λ st, (Raise e, st).

(** A computation that touches no state: it returns or raises. *)
Definition lift {A} (r : result A) : M A := λ st, (r, st).

Definition emit (e : effect) : M unit :=
  modify (λ st, set_trace (trace st ++ [e]) st).

Definition logging (l : level) (msg : string) : M unit := emit (Log l msg).

(** [post_event(name, self.event_loop, ...)] of [async_event_handler]:
    fire and forget. *)
Definition post_event (e : event) : M unit := emit (PostEvent e).

(** [obj.field = v] on the [Audio] object [a]. *)
Definition setattr (a : ref) (f : Audio.t -> Audio.t) : M unit :=
  modify (λ st, set_heap (<[a := f (heap st !!! a)]> (heap st)) st).

Definition getattr {A} (a : ref) (f : Audio.t -> A) : M A :=
  get (λ st, f (heap st !!! a)).

(** [collections.deque]: [popleft] and [pop] raise [IndexError] when empty. *)
Definition queue_popleft : M ref := λ st,
  match queue st with
  | [] => (Raise IndexError, st)
  | a :: q => (Ok a, set_queue q st)
  end.

Definition previous_queue_popleft : M ref := λ st,
  match previous_queue st with
  | [] => (Raise IndexError, st)
  | a :: p => (Ok a, set_previous_queue p st)
  end.

Definition previous_queue_pop : M ref := λ st,
  match rev (previous_queue st) with
  | [] => (Raise IndexError, st)
  | a :: p => (Ok a, set_previous_queue (rev p) st)
  end.

Section Methods.
Context (env : Env).

Definition call_head (url : string) : M head_result := λ st,
    (Ok (requests_head env (length (trace st)) url),
     set_trace (trace st ++ [Head url]) st).

Definition call_get_audio (query : string) : M (option Entry) := λ st,
    (Ok (get_audio env (length (trace st)) query),
     set_trace (trace st ++ [GetAudio query]) st).

Definition call_now : M Z := λ st,
    (Ok (datetime_now env (length (trace st))),
     set_trace (trace st ++ [Now]) st).

  (** *** [Audio] *)

  (** The [try] catches three classes; an exception of any other class
      leaves [is_stale]. *)
Definition is_stale (a : ref) : M bool :=
    url ← getattr a Audio.audio_url;
    r ← call_head url;
    match r with
    | Response status_code => mret (negb (status_code =? 200))
    | ConnectionFailure =>
        logging WARNING "Unable to connect to %s: %s";;
        mret true
    | Uncaught e => raise e
    end.

Definition refresh (a : ref) : M bool :=
    query ← getattr a Audio.webpage_url;
    entry ← call_get_audio query;
    match entry with
    | Some e =>
        setattr a (Audio.set_audio_url (entry_audio_url e));;
        setattr a (Audio.set_webpage_url (entry_webpage_url e));;
        setattr a (Audio.set_title (entry_title e));;
        setattr a (Audio.set_length (entry_length e));;
        setattr a (Audio.set_thumbnail (entry_thumbnail e));;
        logging INFO "Refreshed audio: %s";;
        mret true
    | None =>
        logging ERROR "Unable to refresh audio: %s";;
        mret false
    end.

  (** [datetime.now() + timedelta(seconds=self.length)
       - timedelta(seconds=offset)], evaluated from left to right; the
      attribute is assigned only when the whole expression has a value. *)
Definition set_end_time (a : ref) (offset : Z) : M unit :=
    now ← call_now;
    len ← getattr a Audio.length;
    d ← lift (timedelta len);
    t ← lift (datetime_add now d);
    o ← lift (timedelta (Seconds offset));
    t' ← lift (datetime_add t (- o));
    setattr a (Audio.set_end_time (Some t')).

  (** *** [AudioQueue] *)

  (** The property [current_audio]: getter and setter.  An [Audio] object is
      always true ([Audio] defines neither [__bool__] nor [__len__]). *)
Definition current_audio : M (option ref) := get _current_audio.

Definition set_current_audio (audio : option ref) : M unit :=
    match audio with
    | Some a =>
        stale ← is_stale a;
        if stale : bool then _ ← refresh a; mret tt else mret tt
    | None => mret tt
    end;;
    modify (set__current_audio audio);;
    cur ← get _current_audio;
    match cur with
    | Some a =>
        set_end_time a 0;;
        post_event (new_audio a)
    | None => post_event no_audio
    end.

Definition _add_to_previous_queue (audio : ref) : M unit :=
    n ← get (λ st, length (previous_queue st));
    m ← get max_previous_queue_size;
    if m <? Z.of_nat n then
      _ ← previous_queue_popleft;
      modify (λ st, set_previous_queue (previous_queue st ++ [audio]) st)
    else
      modify (λ st, set_previous_queue (previous_queue st ++ [audio]) st).

Definition get_next_audio : M (option ref) :=
    n ← get (λ st, length (queue st));
    if 0 <? Z.of_nat n then
      cur ← current_audio;
      match cur with
      | Some c => _add_to_previous_queue c
      | None => mret tt
      end;;
      next_audio ← queue_popleft;
      set_current_audio (Some next_audio);;
      logging INFO "Retrieved next song: %s";;
      mret (Some next_audio)
    else
      cur ← get _current_audio;
      match cur with
      | Some c => _add_to_previous_queue c
      | None => mret tt
      end;;
      set_current_audio None;;
      logging WARNING "Unable to get next song, queue is empty";;
      mret None.

Definition get_previous_audio : M (option ref) :=
    n ← get (λ st, length (previous_queue st));
    if 0 <? Z.of_nat n then
      cur ← get _current_audio;
      match cur with
      | Some c => modify (λ st, set_queue (c :: queue st) st)
      | None => mret tt
      end;;
      previous_audio ← previous_queue_pop;
      set_current_audio (Some previous_audio);;
      logging INFO "Retrieved previous audio: %s";;
      mret (Some previous_audio)
    else
      logging ERROR "Unable to get previous audio, previous queue is empty";;
      mret None.

Definition _is_below_max_queue_size : M bool :=
    get (λ st, Z.of_nat (length (queue st)) <? max_queue_size st).

Definition _add_to_queue (audio : pyval) (add_to_start : bool) : M unit :=
    match audio with
    | PyAudio a =>
        below ← _is_below_max_queue_size;
        if below : bool then
          (if add_to_start
           then modify (λ st, set_queue (a :: queue st) st)
           else modify (λ st, set_queue (queue st ++ [a]) st));;
          logging INFO "Audio added to queue: %s";;
          cur ← current_audio;
          match cur with
          | None => _ ← get_next_audio; mret tt
          | Some _ => post_event queue_update
          end
        else
          logging ERROR "Unable to add audio, queue size greater than %s"
    | _ => logging ERROR "Unable to add audio: Not an Audio object"
    end.

Definition append (audio : pyval) : M unit := _add_to_queue audio false.
Definition append_left (audio : pyval) : M unit := _add_to_queue audio true.

Definition get_current_audio : M (option ref) := current_audio.

Definition restart_queue : M unit :=
    cur ← get _current_audio;
    append_left (of_slot cur);;
    modify (λ st, set_queue (previous_queue st ++ queue st) st);;
    modify (set_previous_queue []);;
    _ ← get_next_audio;
    mret tt.

Definition clear_next_queue : M unit :=
    modify (set_queue []);;
    post_event queue_update.

Definition clear_previous_queue : M unit :=
    modify (set_previous_queue []);;
    post_event queue_update.

Definition reset_queue : M unit :=
    clear_next_queue;;
    clear_previous_queue;;
    modify (set__current_audio None).

Definition remove_current_audio : M (option string) :=
    cur ← get_current_audio;
    match cur with
    | Some c =>
        title ← getattr c Audio.title;
        modify (set__current_audio None);;
        _ ← get_next_audio;
        mret (Some title)
    | None => mret None
    end.

Definition get_queue_length : M nat := get (λ st, length (queue st)).
Definition get_previous_queue_length : M nat :=
    get (λ st, length (previous_queue st)).

End Methods.

(** ** Observations on states and traces *)

(** The [post_event] calls of a trace, in order. *)
Definition posted (tr : list effect) : list effect := List.filter is_post tr.

Definition is_log (e : effect) : bool :=
  match e with Log _ _ => true | _ => false end.

(** A trace without its log lines: probes, resolver calls, clock reads and
    published events. *)
Definition calls (tr : list effect) : list effect :=
  List.filter (λ e, negb (is_log e)) tr.

Definition slot_list (o : option ref) : list ref :=
  match o with Some a => [a] | None => [] end.

(** Every reference the queue object holds: current slot, forward queue,
    history. *)
Definition held (st : State) : list ref :=
  slot_list (_current_audio st) ++ queue st ++ previous_queue st.

Definition no_aliasing (st : State) : Prop := NoDup (held st).

(** The history [_add_to_previous_queue] leaves when it is given [c] with the
    history [p] and the bound [mp]; nothing when it raises. *)
Definition pushed (mp : Z) (p : list ref) (c : ref) : option (list ref) :=
  if mp <? Z.of_nat (length p) then
    match p with
    | [] => None
    | _ :: p' => Some (p' ++ [c])
    end
  else Some (p ++ [c]).

(** The same for the step [get_next_audio] starts with: only an occupied
    slot is pushed. *)
Definition retired (mp : Z) (p : list ref) (o : option ref) : option (list ref) :=
  match o with
  | Some c => pushed mp p c
  | None => Some p
  end.

(** The forward queue as [restart_queue] has it after its [append_left] of
    the current slot: the current track in front, unless the slot is empty
    or the queue is at its bound. *)
Definition requeued (st : State) : list ref :=
  match _current_audio st with
  | Some c =>
      if Z.of_nat (length (queue st)) <? max_queue_size st
      then c :: queue st
      else queue st
  | None => queue st
  end.

Definition event_of_slot (o : option ref) : event :=
  match o with
  | Some a => new_audio a
  | None => no_audio
  end.

(** One call of the public interface. *)
Inductive op :=
| OpAppend (v : pyval)
| OpAppendLeft (v : pyval)
| OpGetNextAudio
| OpGetPreviousAudio
| OpRestartQueue
| OpRemoveCurrentAudio
| OpResetQueue.

(** The operations that cannot lengthen the forward queue past its bound:
    all but the two that move tracks back into it. *)
Definition admission_checked (o : op) : bool :=
  match o with
  | OpGetPreviousAudio | OpRestartQueue => false
  | _ => true
  end.

Definition queue_len (st : State) : Z := Z.of_nat (length (queue st)).

(** The two guards of [_add_to_queue], read in the state the call starts
    from: the value is an [Audio] instance and the forward queue is below
    [max_queue_size]. *)
Definition passes_guards (st : State) (v : pyval) : bool :=
  match v with
  | PyAudio _ => Z.of_nat (length (queue st)) <? max_queue_size st
  | _ => false
  end.

(** The value of the expression in [set_end_time], from the clock reading
    and the [length] it finds. *)
Definition end_time_of (now : Z) (len : duration) (offset : Z) : result Z :=
  match timedelta len with
  | Ok d =>
      match datetime_add now d with
      | Ok t =>
          match timedelta (Seconds offset) with
          | Ok o => datetime_add t (- o)
          | Raise e => Raise e
          end
      | Raise e => Raise e
      end
  | Raise e => Raise e
  end.

(** What [is_stale] makes of the answer to its probe. *)
Definition is_stale_answer (r : head_result) : result bool :=
  match r with
  | Response status_code => Ok (negb (status_code =? 200))
  | ConnectionFailure => Ok true
  | Uncaught e => Raise e
  end.

(** The outcome of a call that hands on the outcome [r] of a call made
    inside it, returning [b] when that call returned. *)
Definition result_as {A B} (r : result A) (b : B) : result B :=
  match r with
  | Ok _ => Ok b
  | Raise e => Raise e
  end.

(** ** Callers *)

Section Callers.
Context (env : Env).

(** What the probe of [is_stale] decides for the object [a] when it is
    made in state [st]: stale without a 200, stale without a connection,
    or the exception that leaves [is_stale]. *)
Definition stale_in (st : State) (a : ref) : result bool :=
  is_stale_answer
    (requests_head env (length (trace st)) (Audio.audio_url (heap st !!! a))).

(** The fields [refresh] overwrites, taken from the resolver's entry. *)
Definition refreshed (e : Entry) (old : Audio.t) : Audio.t :=
  Audio.mk (Audio.author old) (Audio.voice_channel old) (Audio.text_channel old)
           (entry_audio_url e) (entry_webpage_url e) (entry_title e)
           (entry_length e) (entry_thumbnail e) (Audio.end_time old).

(** The heap [refresh] may leave: the old one, or the old one with the
    object overwritten from an entry of the resolver. *)
Definition refreshed_heap (a : ref) (h0 h : gmap ref Audio.t) : Prop :=
  h = h0
  ∨ ∃ e k q, get_audio env k q = Some e ∧ h = <[a := refreshed e (h0 !!! a)]> h0.

(** A world whose probe never raises past [is_stale]. *)
Definition probes_answer : Prop :=
  ∀ (k : nat) (url : string) (e : exn), requests_head env k url ≠ Uncaught e.

(** A [length] for which [set_end_time] has a value whenever it is called:
    a number that [timedelta] takes and that, added to the clock, stays a
    [datetime]. *)
Definition end_time_fits (len : duration) : Prop :=
  ∀ k : nat, ∃ t, end_time_of (datetime_now env k) len 0 = Ok t.

(** A world and a heap in which every assignment to the current slot runs
    to its end: no probe raises past [is_stale], and the [length] of every
    object, and of every entry the resolver may return, has an end time. *)
Definition promotes (h : gmap ref Audio.t) : Prop :=
  probes_answer
  ∧ (∀ k q e, get_audio env k q = Some e → end_time_fits (entry_length e))
  ∧ (∀ a : ref, end_time_fits (Audio.length (h !!! a))).

(** What a caller of the setter sees of an assignment of [target] made
    with [old] in the slot and the heap [h0]: the outcome [r], the slot [c],
    the heap [h] and the calls [tr] it leaves.  When it returns, the slot
    holds [target] and one event was published.  When it raises, no event
    was published, and the slot holds [target] already, or still [old] if
    the exception came from the probe.  It returns whenever the world and
    the heap promote, and then they still do. *)
Definition setter_outcome (target old : option ref) (h0 : gmap ref Audio.t)
    (r : result unit) (c : option ref) (h : gmap ref Audio.t)
    (tr : list effect) : Prop :=
  (promotes h0 → r = Ok tt ∧ promotes h)
  ∧ match r with
    | Ok _ => c = target ∧ posted tr = [PostEvent (event_of_slot target)]
    | Raise _ =>
        tr ≠ [] ∧ posted tr = []
        ∧ (c = target ∨ (c = old ∧ ¬ probes_answer))
    end.

Definition exec_op (o : op) : M unit :=
  match o with
  | OpAppend v => append env v
  | OpAppendLeft v => append_left env v
  | OpGetNextAudio => _ ← get_next_audio env; mret tt
  | OpGetPreviousAudio => _ ← get_previous_audio env; mret tt
  | OpRestartQueue => restart_queue env
  | OpRemoveCurrentAudio => _ ← remove_current_audio env; mret tt
  | OpResetQueue => reset_queue
  end.

(** A caller making the calls one after the other; the queue object outlives
    an exception, so the next call starts from the state the failed one
    left. *)
Fixpoint run_ops (os : list op) (st : State) : State :=
  match os with
  | [] => st
  | o :: os' => run_ops os' (snd (exec_op o st))
  end.



(** A sequence of [append] ([false]) and [append_left] ([true]) calls. *)
Fixpoint run_appends (cs : list (pyval * bool)) : M unit :=
  match cs with
  | [] => mret tt
  | (v, add_to_start) :: cs' =>
      _add_to_queue env v add_to_start;;
      run_appends cs'
  end.


End Callers.

(** What a run of appends keeps when [n] of them were accepted: every
    accepted item is in the forward queue or was promoted into the empty
    slot, and the slot is never emptied. *)
Definition append_inv (n : nat) (st st' : State) : Prop :=
  (length (queue st') + length (slot_list (_current_audio st'))
   = length (queue st) + length (slot_list (_current_audio st)) + n)%nat
  ∧ (_current_audio st' = None → n = 0%nat ∧ _current_audio st = None).

(** ** Rendering *)

Definition newline : string := String (Ascii.ascii_of_nat 10) EmptyString.

(** [Audio.__str__]. *)
Definition Audio__str__ (a : ref) : M string := getattr a Audio.title.

(** [d[i]] on a deque: a negative index counts from the right end, an index
    out of range raises [IndexError]. *)
Definition deque_getitem (l : list ref) (i : Z) : M ref := λ st,
  let n := Z.of_nat (length l) in
  let j := if i <? 0 then i + n else i in
  if (0 <=? j) && (j <? n) then
    match l !! Z.to_nat j with
    | Some a => (Ok a, st)
    | None => (Raise IndexError, st)
    end
  else (Raise IndexError, st).

(** [for idx in range(start, start + n)] threading the string built so
    far. *)
Fixpoint for_range (n : nat) (idx : Z) (body : Z → string → M string)
    (acc : string) : M string :=
  match n with
  | O => mret acc
  | S n' => acc' ← body idx acc; for_range n' (idx + 1) body acc'
  end.

Definition get_queue_as_str (amount : Z) : M (option string) :=
  n ← get (λ st, Z.min amount (Z.of_nat (length (queue st))));
  next_audio ← for_range (Z.to_nat n) 0 (λ idx acc,
      q ← get queue;
      a ← deque_getitem q idx;
      t ← Audio__str__ a;
      mret (acc +:+ pretty (idx + 1) +:+ ". " +:+ t +:+ newline)) "";
  mret (if decide (next_audio = "") then None else Some next_audio).

Definition get_previous_queue_as_str (amount : Z) : M (option string) :=
  n ← get (λ st, Z.min amount (Z.of_nat (length (previous_queue st))));
  previous_audio ← for_range (Z.to_nat n) 0 (λ idx acc,
      p ← get previous_queue;
      a ← deque_getitem p (- idx - 1);
      t ← Audio__str__ a;
      mret (acc +:+ pretty (idx + 1) +:+ ". " +:+ t +:+ newline)) "";
  mret (if decide (previous_audio = "") then None else Some previous_audio).

(** The defaults of [amount]. *)
Definition default_queue_amount : Z := 5.
Definition default_previous_queue_amount : Z := 3.

(** Numbered lines, one per title, counting from [i]. *)
Fixpoint numbered (i : Z) (titles : list string) : string :=
  match titles with
  | [] => ""
  | t :: ts => pretty i +:+ ". " +:+ t +:+ newline +:+ numbered (i + 1) ts
  end.

Definition titles_of (h : gmap ref Audio.t) (l : list ref) : list string :=
  map (λ a, Audio.title (h !!! a)) l.

Definition nonempty_string (s : string) : option string :=
  if decide (s = "") then None else Some s.


(** ** Further observations *)

Definition hist_len (st : State) : Z := Z.of_nat (length (previous_queue st)).

(** The length the history settles at: one more than its bound, and nothing
    when the bound is negative. *)
Definition history_cap (st : State) : Z :=
  Z.max 0 (max_previous_queue_size st + 1).

(** An empty current slot with tracks waiting. *)
Definition no_backlog_when_idle (st : State) : Prop :=
  _current_audio st = None → queue st = [].

(** What every call keeps, from the state [st] before to the state [st']
    after, whether it returns or raises. *)
Definition keeps (st st' : State) : Prop :=
  max_queue_size st' = max_queue_size st
  ∧ max_previous_queue_size st' = max_previous_queue_size st
  ∧ (hist_len st ≤ history_cap st → hist_len st' ≤ history_cap st).

(** The calls that push to the history while the slot may be occupied. *)
Definition pushes_history (o : op) : bool :=
  match o with
  | OpGetNextAudio | OpRestartQueue => true
  | _ => false
  end.

(** The fields of the queue object, without the heap and the trace. *)
Definition layout (st : State) : Z * Z * list ref * list ref * option ref :=
  (max_queue_size st, max_previous_queue_size st, queue st, previous_queue st,
   _current_audio st).

(** ** The playback driver (src/voice.py)

    The part of [class Voice] that does not depend on how the chat library
    joins a channel or starts a player: [is_playing], [after], [go_to],
    [_get_audio_source], [disconnect_voice], [stop_voice].  The voice client
    is an object of the chat library: each call on it is recorded in the
    trace and answered by the world, with a value or with an exception. *)
Module Voice.

(** The exception classes the driver tells apart, and all others. *)
Inductive exn :=
| AttributeError
| TypeError
| OtherException (name : string).

Inductive result (A : Type) :=
| Ok (a : A)
| Raise (e : exn).
Arguments Ok {A} a.
Arguments Raise {A} e.

(** [FFMPEG_OPTS] of [config.settings]: two lists of flags. *)
Record Options := mkOptions {
  opt_before_options : list string;
  opt_options : list string
}.

(** The arguments of [PCMVolumeTransformer(FFmpegPCMAudio(source, before_options,
    options), volume)]; the volume, [0.1], in percent. *)
Record AudioSource := mkSource {
  source : string;
  before_options : string;
  options : string;
  volume_percent : Z
}.

Inductive effect :=
| IsPlaying
| Stop
| Disconnect (force : bool)
| SetSource (s : AudioSource)
| NewSource (s : AudioSource)
| Log (l : level) (msg : string)
| AfterFunction.

(** The answers of the chat library and of the continuation, by the number
    of calls and log lines made so far. *)
Record World := mkWorld {
  FFMPEG_OPTS : Options;
  is_playing_answer : nat → result bool;
  stop_answer : nat → result unit;
  disconnect_answer : nat → result unit;
  set_source_answer : nat → result unit;
  new_source_answer : nat → result unit;
  after_function_answer : nat → result unit
}.

(** The fields of a [Voice] object ([bot] is used by [join_voice] only);
    [after_function] is [true] when a continuation was given. *)
Record State := mkState {
  client : option nat;
  cur_audio : option ref;
  after_function : bool;
  heap : gmap ref Audio.t;
  trace : list effect
}.

Definition V (A : Type) : Type := State → result A * State.

#[global] Instance V_ret : MRet V := λ A a st, (Ok a, st).
#[global] Instance V_bind : MBind V := λ A B f m st,
  match m st with
  | (Ok a, st') => f a st'
  | (Raise e, st') => (Raise e, st')
  end.

Definition get {A} (f : State → A) : V A := λ st, (Ok (f st), st).
Definition raise {A} (e : exn) : V A := λ st, (Raise e, st).

Definition set_client (c : option nat) : V unit := λ st,
  (Ok tt, mkState c (cur_audio st) (after_function st) (heap st) (trace st)).
Definition set_cur_audio (a : option ref) : V unit := λ st,
  (Ok tt, mkState (client st) a (after_function st) (heap st) (trace st)).

(** A call that leaves the module: recorded, then answered by the world. *)
Definition call {A} (e : effect) (answer : nat → result A) : V A := λ st,
  (answer (length (trace st)),
   mkState (client st) (cur_audio st) (after_function st) (heap st)
           (trace st ++ [e])).

Definition logging (l : level) (msg : string) : V unit :=
  call (Log l msg) (λ _, Ok tt).

(** [try: body], with the exception, if any, handed to the handler. *)
Definition attempt {A} (body : V A) : V (result A) := λ st,
  let (r, st') := body st in (Ok r, st').

Section Methods.
Context (w : World).

(** A method call on [self.client]: [AttributeError] when there is no
    client. *)
Definition on_client {A} (e : effect) (answer : nat → result A) : V A :=
  c ← get client;
  match c with
  | Some _ => call e answer
  | None => raise AttributeError
  end.

Definition is_playing : V bool :=
  c ← get client;
  match c with
  | Some _ => call IsPlaying (is_playing_answer w)
  | None => mret false
  end.

(** [after(e)]; [e] is [true] for an exception, [false] for [None]. *)
Definition after (e : bool) : V unit :=
  set_cur_audio None;;
  (if e then logging ERROR "Play error: %s" else mret tt);;
  f ← get after_function;
  if f : bool then call AfterFunction (after_function_answer w) else mret tt.

(** An empty list of extra flags counts as none ([if extra_before_options:]). *)
Definition _get_audio_source (audio : ref)
    (extra_before_options extra_options : option (list string)) : V AudioSource :=
  let before := opt_before_options (FFMPEG_OPTS w)
                ++ default [] extra_before_options in
  let opts := opt_options (FFMPEG_OPTS w) ++ default [] extra_options in
  url ← get (λ st, Audio.audio_url (heap st !!! audio));
  let audio_source :=
    mkSource url (String.concat " " before) (String.concat " " opts) 10 in
  call (NewSource audio_source) (new_source_answer w);;
  mret audio_source.

Definition go_to (time : Z) : V unit :=
  playing ← is_playing;
  cur ← get cur_audio;
  match playing, cur with
  | true, Some a =>
      audio_source ← _get_audio_source a (Some ["-ss " +:+ pretty time]) None;
      on_client (SetSource audio_source) (set_source_answer w)
  | _, _ => mret tt
  end.

Definition disconnect_voice : V unit :=
  r ← attempt (on_client (Disconnect true) (disconnect_answer w));
  match r with
  | Ok _ => mret tt
  | Raise AttributeError | Raise TypeError =>
      logging WARNING "No voice client connected to stop: %s"
  | Raise e => raise e
  end;;
  set_client None.

Definition stop_voice : V unit :=
  r ← attempt (on_client Stop (stop_answer w));
  match r with
  | Ok _ => mret tt
  | Raise AttributeError | Raise TypeError =>
      logging WARNING "No voice client connected to stop: %s"
  | Raise e => raise e
  end.

End Methods.

(** The calls on the voice client in a trace. *)
Definition client_calls (tr : list effect) : list effect :=
  List.filter (λ e, match e with
                    | IsPlaying | Stop | Disconnect _ | SetSource _ => true
                    | _ => false
                    end) tr.

End Voice.

(** ** A concrete world, for examples *)

(** A clock that starts on a day of the year 2025 and ticks through it. *)
Definition a_day_in_2025 : Z := 63900000000.
Definition clock (n : nat) : Z := a_day_in_2025 + Z.of_nat n `mod` 86400.

(** Every probe answers 200, the resolver finds nothing, the clock ticks. *)
Definition quiet_env : Env :=
  mkEnv (λ _ _, Response 200) (λ _ _, None) clock.

(** Every probe fails to connect; the resolver answers. *)
Definition stale_env : Env :=
  mkEnv (λ _ _, ConnectionFailure)
        (λ _ q, Some (mkEntry "https://cdn/fresh" q "fresh title" (Seconds 180)
                              "thumb"))
        clock.

(** A probe as [requests] has it: a URL without a scheme is refused with
    [MissingSchema] before any connection is made. *)
Definition strict_env : Env :=
  mkEnv (λ _ url, if String.prefix "https://" url then Response 200
                  else Uncaught (OtherException "MissingSchema"))
        (λ _ _, None) clock.

Definition track (url page name : string) (len : Z) : Audio.t :=
  Audio.mk 1%nat 2%nat 3%nat url page name (Seconds len) "" None.

(** A queue with room for one waiting track. *)
Definition narrow (h : gmap ref Audio.t) : State := init 1 100 h.

(** Three tracks in the heap. *)
Definition three_tracks : gmap ref Audio.t :=
  <[1%nat := track "https://cdn/1" "https://page/1" "one" 100]>
  (<[2%nat := track "https://cdn/2" "https://page/2" "two" 200]>
  (<[3%nat := track "https://cdn/3" "https://page/3" "three" 300]> ∅)).

(** Two more: track 4 says it lasts [10^12] seconds, some thirty thousand
    years; track 5 has a stream URL without a scheme. *)
Definition five_tracks : gmap ref Audio.t :=
  <[4%nat := track "https://cdn/4" "https://page/4" "four" 1000000000000]>
  (<[5%nat := track "cdn/5" "https://page/5" "five" 500]> three_tracks).

(** A queue that raises on the first push to its history. *)
Definition no_memory (h : gmap ref Audio.t) : State :=
  init default_max_queue_size (-1) h.


(** A queue whose history is meant to keep one track. *)
Definition short_memory (h : gmap ref Audio.t) : State :=
  init default_max_queue_size 1 h.

(** A fresh queue with the defaults of [__init__], over the three tracks. *)
Definition fresh : State :=
  init default_max_queue_size default_max_previous_queue_size three_tracks.

(** The same over the five tracks. *)
Definition fresh_five : State :=
  init default_max_queue_size default_max_previous_queue_size five_tracks.

(** Track 1 was played to its end and nothing followed: idle, with a
    history. *)
Definition idle_after_one : State :=
  run_ops quiet_env [OpAppend (PyAudio 1%nat); OpGetNextAudio] fresh.

(** Track 1 in the history, track 2 playing, track 3 waiting. *)
Definition playing_second : State :=
  run_ops quiet_env
    [OpAppend (PyAudio 1%nat); OpAppend (PyAudio 2%nat);
     OpAppend (PyAudio 3%nat); OpGetNextAudio] fresh.

(** Track 1 playing, nothing waiting, nothing remembered. *)
Definition playing_first : State :=
  run_ops quiet_env [OpAppend (PyAudio 1%nat)] fresh.

(** Track 1 playing in a queue that raises on the first push to its
    history. *)
Definition playing_without_memory : State :=
  run_ops quiet_env [OpAppend (PyAudio 1%nat)] (no_memory three_tracks).

(** Track 1 playing, track 4 (the one without an end time) waiting. *)
Definition endless_waits : State :=
  run_ops quiet_env [OpAppend (PyAudio 1%nat); OpAppend (PyAudio 4%nat)]
          fresh_five.

(** Track 1 playing, track 5 (the one without a scheme) and track 3
    waiting. *)
Definition schemeless_waits : State :=
  run_ops strict_env
    [OpAppend (PyAudio 1%nat); OpAppend (PyAudio 5%nat);
     OpAppend (PyAudio 3%nat)] fresh_five.

(** A fresh queue with the defaults of [__init__] over an empty heap. *)
Definition fresh_elsewhere : State :=
  init default_max_queue_size default_max_previous_queue_size ∅.

(** A driver whose client plays and answers every call, with two
    before-options and one option configured. *)
Definition obliging_world : Voice.World :=
  Voice.mkWorld
    (Voice.mkOptions ["-reconnect 1"; "-reconnect_streamed 1"] ["-vn"])
    (λ _, Voice.Ok true) (λ _, Voice.Ok tt) (λ _, Voice.Ok tt)
    (λ _, Voice.Ok tt) (λ _, Voice.Ok tt) (λ _, Voice.Ok tt).

Definition streaming_first : Voice.State :=
  Voice.mkState (Some 0%nat) (Some 1%nat) true three_tracks [].

(** * Properties *)

(** ** The monad *)

Ltac munfold :=
  unfold logging, post_event, emit, setattr, getattr, call_head,
    call_get_audio, call_now, mbind, M_bind, mret, M_ret, get, modify, raise,
    lift in *.

(** Two states written differently: unfold the setters and reassociate the
    traces. *)
Ltac same_state :=
  unfold set_trace, set_heap, set__current_audio, set_queue,
    set_previous_queue;
  simpl; rewrite <- ?app_assoc; simpl; rewrite <- ?app_assoc; try done.

Lemma bind_ok {A B} (m : M A) (f : A → M B) (st st' : State) (a : A) :
  m st = (Ok a, st') → (m ≫= f) st = f a st'.
Proof. intros H. unfold mbind, M_bind. by rewrite H. Qed.

Lemma bind_raise {A B} (m : M A) (f : A → M B) (st st' : State) (e : exn) :
  m st = (Raise e, st') → (m ≫= f) st = (Raise e, st').
Proof. intros H. unfold mbind, M_bind. by rewrite H. Qed.

Lemma posted_app (t1 t2 : list effect) : posted (t1 ++ t2) = posted t1 ++ posted t2.
Proof. apply List.filter_app. Qed.

Lemma calls_app (t1 t2 : list effect) : calls (t1 ++ t2) = calls t1 ++ calls t2.
Proof. apply List.filter_app. Qed.

Lemma posted_snoc_log (tr : list effect) (l : level) (msg : string) :
  posted (tr ++ [Log l msg]) = posted tr.
Proof. rewrite posted_app. simpl. by rewrite app_nil_r. Qed.

Lemma posted_calls (t : list effect) : posted (calls t) = posted t.
Proof. induction t as [|[] t IH]; simpl; auto. by f_equal. Qed.

Arguments set_current_audio : simpl never.
Arguments setter_outcome : simpl never.
Arguments timedelta : simpl never.
Arguments datetime_add : simpl never.
Arguments end_time_of : simpl never.

(** ** Dates *)

(** A length of whole seconds has an end time as soon as [timedelta] takes
    it and the clock plus the length stays within the years 1 to 9999. *)
Lemma end_time_fits_seconds (env : Env) (s : Z) :
  timedelta_min ≤ s ≤ timedelta_max →
  (∀ k, 0 ≤ datetime_now env k + s ≤ datetime_max) →
  end_time_fits env (Seconds s).
Proof.
  intros Hs Hclock k. specialize (Hclock k).
  unfold end_time_of, timedelta, datetime_add.
  assert (H1 : (timedelta_min <=? s) && (s <=? timedelta_max) = true).
  { apply andb_true_intro. split; apply Z.leb_le; lia. }
  assert (H2 : (0 <=? datetime_now env k + s)
               && (datetime_now env k + s <=? datetime_max) = true).
  { apply andb_true_intro. split; apply Z.leb_le; lia. }
  assert (H3 : (timedelta_min <=? 0) && (0 <=? timedelta_max) = true)
    by reflexivity.
  assert (H4 : (0 <=? datetime_now env k + s + - 0)
               && (datetime_now env k + s + - 0 <=? datetime_max) = true).
  { apply andb_true_intro. split; apply Z.leb_le; lia. }
  rewrite H1, H2, H3, H4. by eexists.
Qed.

Lemma clock_today (k : nat) : a_day_in_2025 ≤ clock k < a_day_in_2025 + 86400.
Proof.
  unfold clock. pose proof (Z.mod_pos_bound (Z.of_nat k) 86400). lia.
Qed.

Section Properties.
Context (env : Env).

(** ** [Audio.is_stale] *)

Lemma is_stale_run (a : ref) (st : State) :
  is_stale env a st
  = (stale_in env st a,
     set_trace
       (trace st ++
          Head (Audio.audio_url (heap st !!! a))
          :: match requests_head env (length (trace st))
                     (Audio.audio_url (heap st !!! a)) with
             | ConnectionFailure => [Log WARNING "Unable to connect to %s: %s"]
             | _ => []
             end) st).
Proof.
  unfold is_stale, stale_in, is_stale_answer. munfold. simpl.
  destruct (requests_head env _ _); simpl; try done.
  unfold set_trace; simpl. by rewrite <- app_assoc.
Qed.

(** ** [Audio.refresh] *)

Lemma refresh_found (a : ref) (st : State) (e : Entry) :
  get_audio env (length (trace st)) (Audio.webpage_url (heap st !!! a)) = Some e →
  refresh env a st =
    (Ok true,
     set_trace (trace st ++ [GetAudio (Audio.webpage_url (heap st !!! a));
                             Log INFO "Refreshed audio: %s"])
       (set_heap (<[a := refreshed e (heap st !!! a)]> (heap st)) st)).
Proof.
  intros Hget. unfold refresh. munfold. simpl. rewrite Hget. simpl.
  rewrite !lookup_total_insert_eq, !insert_insert_eq.
  unfold set_trace, set_heap, refreshed; simpl. by rewrite <- app_assoc.
Qed.

Lemma refresh_missing (a : ref) (st : State) :
  get_audio env (length (trace st)) (Audio.webpage_url (heap st !!! a)) = None →
  refresh env a st =
    (Ok false,
     set_trace (trace st ++ [GetAudio (Audio.webpage_url (heap st !!! a));
                             Log ERROR "Unable to refresh audio: %s"]) st).
Proof.
  intros Hget. unfold refresh. munfold. simpl. rewrite Hget. simpl.
  unfold set_trace; simpl. by rewrite <- app_assoc.
Qed.

Lemma refresh_run (a : ref) (st : State) :
  ∃ ok h tr,
    refresh env a st = (Ok ok, set_trace (trace st ++ tr) (set_heap h st))
    ∧ calls tr = [GetAudio (Audio.webpage_url (heap st !!! a))]
    ∧ refreshed_heap env a (heap st) h.
Proof.
  destruct (get_audio env (length (trace st)) (Audio.webpage_url (heap st !!! a)))
    as [e|] eqn:Hget.
  - eexists true, _, _. rewrite (refresh_found _ _ _ Hget).
    split_and!; [done..|]. right. by eexists _, _, _.
  - eexists false, (heap st), _. rewrite (refresh_missing _ _ Hget).
    split_and!; [by destruct st|done|by left].
Qed.

(** ** [Audio.set_end_time] *)

Lemma set_end_time_run (a : ref) (offset : Z) (st : State) :
  set_end_time env a offset st =
    match end_time_of (datetime_now env (length (trace st)))
                      (Audio.length (heap st !!! a)) offset with
    | Ok t =>
        (Ok tt,
         set_trace (trace st ++ [Now])
           (set_heap (<[a := Audio.set_end_time (Some t) (heap st !!! a)]>
                        (heap st)) st))
    | Raise e => (Raise e, set_trace (trace st ++ [Now]) st)
    end.
Proof.
  unfold set_end_time, end_time_of. munfold. simpl.
  destruct (timedelta (Audio.length (heap st !!! a))) as [d|e]; [|done].
  destruct (datetime_add _ d) as [t|e]; [|done].
  destruct (timedelta (Seconds offset)) as [o|e]; [|done].
  by destruct (datetime_add t (- o)) as [t'|e].
Qed.

Opaque set_end_time.

(** ** The setter of [current_audio] *)

(** Assigning the object [a]: the run in full.  An exception of the probe
    ends it before anything is written; otherwise the slot is written after
    the probe and the refresh, the clock is read, and the event is
    published if the end time has a value. *)
Lemma set_current_audio_some (a : ref) (st : State) :
  match stale_in env st a with
  | Raise e =>
      set_current_audio env (Some a) st
      = (Raise e,
         set_trace (trace st ++ [Head (Audio.audio_url (heap st !!! a))]) st)
  | Ok stale =>
      ∃ h1 tr1,
        calls tr1 =
          [Head (Audio.audio_url (heap st !!! a))]
          ++ (if stale : bool
              then [GetAudio (Audio.webpage_url (heap st !!! a))] else [])
        ∧ refreshed_heap env a (heap st) h1
        ∧ set_current_audio env (Some a) st
          = match end_time_of (datetime_now env (length (trace st ++ tr1)))
                              (Audio.length (h1 !!! a)) 0 with
            | Ok t =>
                (Ok tt,
                 mkState (max_queue_size st) (max_previous_queue_size st)
                         (queue st) (previous_queue st) (Some a)
                         (<[a := Audio.set_end_time (Some t) (h1 !!! a)]> h1)
                         (trace st ++ tr1 ++ [Now; PostEvent (new_audio a)]))
            | Raise e =>
                (Raise e,
                 mkState (max_queue_size st) (max_previous_queue_size st)
                         (queue st) (previous_queue st) (Some a) h1
                         (trace st ++ tr1 ++ [Now]))
            end
  end.
Proof.
  unfold set_current_audio. pose proof (is_stale_run a st) as Hst.
  unfold stale_in, is_stale_answer in *.
  destruct (requests_head env _ _) as [code| |e] eqn:Hhead.
  - destruct (negb (code =? 200)) eqn:Hstale.
    + destruct (refresh_run a (set_trace (trace st ++
                  [Head (Audio.audio_url (heap st !!! a))]) st))
        as (ok & h & tr2 & Hre & Hc2 & Hh).
      eexists h, ([Head (Audio.audio_url (heap st !!! a))] ++ tr2).
      split; [by rewrite calls_app, Hc2|]. split; [exact Hh|].
      erewrite bind_ok.
      2:{ erewrite bind_ok; [|exact Hst]. cbv beta iota.
          erewrite bind_ok; [|exact Hre]. reflexivity. }
      munfold. simpl. rewrite set_end_time_run. simpl.
      same_state. destruct (end_time_of _ _ _); same_state.
    + eexists (heap st), [Head (Audio.audio_url (heap st !!! a))].
      split; [done|]. split; [by left|].
      erewrite bind_ok.
      2:{ erewrite bind_ok; [|exact Hst]. reflexivity. }
      munfold. simpl. rewrite set_end_time_run. simpl.
      same_state. destruct (end_time_of _ _ _); same_state.
  - destruct (refresh_run a (set_trace (trace st ++
                [Head (Audio.audio_url (heap st !!! a));
                 Log WARNING "Unable to connect to %s: %s"]) st))
      as (ok & h & tr2 & Hre & Hc2 & Hh).
    eexists h, ([Head (Audio.audio_url (heap st !!! a));
                 Log WARNING "Unable to connect to %s: %s"] ++ tr2).
    split; [by rewrite calls_app, Hc2|]. split; [exact Hh|].
    erewrite bind_ok.
    2:{ erewrite bind_ok; [|exact Hst]. cbv beta iota.
        erewrite bind_ok; [|exact Hre]. reflexivity. }
    munfold. simpl. rewrite set_end_time_run. simpl.
    same_state. destruct (end_time_of _ _ _); same_state.
  - erewrite bind_raise; [reflexivity|].
    erewrite bind_raise; [reflexivity|exact Hst].
Qed.

Lemma set_current_audio_none (st : State) :
  set_current_audio env None st =
    (Ok tt, set_trace (trace st ++ [PostEvent no_audio]) (set__current_audio None st)).
Proof. reflexivity. Qed.

Lemma promotes_insert (h : gmap ref Audio.t) (a : ref) (x : Audio.t) :
  promotes env h → end_time_fits env (Audio.length x) →
  promotes env (<[a := x]> h).
Proof.
  intros (Hprobe & Hworld & Hheap) Hx. split_and!; [done..|].
  intros b. destruct (decide (a = b)) as [->|Hne].
  - by rewrite lookup_total_insert_eq.
  - by rewrite lookup_total_insert_ne.
Qed.

Lemma promotes_refreshed (a : ref) (h0 h : gmap ref Audio.t) :
  promotes env h0 → refreshed_heap env a h0 h → promotes env h.
Proof.
  intros Hp [->|(e & k & q & Hget & ->)]; [done|].
  apply promotes_insert; [done|]. destruct Hp as (_ & Hworld & _).
  simpl. by eapply Hworld.
Qed.

(** What every caller of the setter relies on: it writes the slot and
    nothing else of the queue object, and it publishes one event if it
    returns and none if it raises. *)
Lemma set_current_audio_run (o : option ref) (st : State) :
  ∃ r c h tr,
    set_current_audio env o st =
      (r,
       mkState (max_queue_size st) (max_previous_queue_size st) (queue st)
               (previous_queue st) c h (trace st ++ tr))
    ∧ setter_outcome env o (_current_audio st) (heap st) r c h tr.
Proof.
  unfold setter_outcome. destruct o as [a|].
  - pose proof (set_current_audio_some a st) as Hrun.
    destruct (stale_in env st a) as [stale|e] eqn:Hstale.
    + destruct Hrun as (h1 & tr1 & Hc & Hh & ->).
      assert (Hposted : posted tr1 = []).
      { rewrite <- posted_calls, Hc. by destruct stale. }
      destruct (end_time_of _ _ 0) as [t|e] eqn:Hend.
      * eexists (Ok tt), _, _, _. split; [reflexivity|]. split.
        -- intros Hp. split; [done|].
           pose proof (promotes_refreshed _ _ _ Hp Hh) as Hp1.
           apply promotes_insert; [done|]. simpl. apply Hp1.
        -- split; [done|]. by rewrite posted_app, Hposted.
      * eexists (Raise e), _, _, _. split; [reflexivity|]. split.
        -- intros Hp.
           pose proof (promotes_refreshed _ _ _ Hp Hh) as (_ & _ & Hfit).
           destruct (Hfit a (length (trace st ++ tr1))) as [t Ht]. congruence.
        -- split_and!; [by destruct tr1| |by left].
           by rewrite posted_app, Hposted.
    + unfold stale_in, is_stale_answer in Hstale.
      destruct (requests_head env _ _) as [code| |e'] eqn:Hhead; try done.
      injection Hstale as ->.
      eexists (Raise e), (_current_audio st), (heap st), _.
      split; [rewrite Hrun; by destruct st|]. split.
      * intros (Hprobe & _). by destruct (Hprobe _ _ _ Hhead).
      * split_and!; [done|done|]. right. split; [done|].
        intros Hprobe. by destruct (Hprobe _ _ _ Hhead).
  - exists (Ok tt), None, (heap st), [PostEvent no_audio].
    by rewrite set_current_audio_none.
Qed.

Lemma setter_outcome_returns (target old : option ref) (h0 h : gmap ref Audio.t)
    (r : result unit) (c : option ref) (tr : list effect) :
  promotes env h0 →
  setter_outcome env target old h0 r c h tr →
  r = Ok tt ∧ c = target ∧ posted tr = [PostEvent (event_of_slot target)]
  ∧ promotes env h.
Proof.
  unfold setter_outcome. intros Hp [Hret Hcase].
  destruct (Hret Hp) as [-> Hp']. by destruct Hcase as [-> Hpost].
Qed.

Lemma setter_outcome_log (target old : option ref) (h0 h : gmap ref Audio.t)
    (c : option ref) (tr : list effect) (l : level) (msg : string) :
  setter_outcome env target old h0 (Ok tt) c h tr →
  setter_outcome env target old h0 (Ok tt) c h (tr ++ [Log l msg]).
Proof.
  unfold setter_outcome. intros [Hret [Hc Hpost]].
  split; [done|]. split; [done|]. by rewrite posted_snoc_log.
Qed.

(** Where the slot is after an assignment in a world whose probe answers:
    at its target, whether the setter returned or raised. *)
Lemma setter_outcome_slot (target old : option ref) (h0 h : gmap ref Audio.t)
    (r : result unit) (c : option ref) (tr : list effect) :
  probes_answer env →
  setter_outcome env target old h0 r c h tr → c = target.
Proof.
  unfold setter_outcome. intros Hprobe [_ Hcase].
  destruct r; [by destruct Hcase|].
  by destruct Hcase as (_ & _ & [?|[_ ?]]).
Qed.

(** C4, as the code has it: assigning an [Audio] to the current slot probes
    it with [is_stale] first.  An exception that leaves [is_stale] leaves
    the setter there and then: the probe is the one call made, the slot and
    the heap are as before.  Otherwise the resolver is called through
    [refresh] exactly when the probe says stale, then, whatever [refresh]
    answered, the slot holds the object and [set_end_time] reads the clock;
    if the end time has a value it is stored, [new_audio] carrying that
    object is published and the setter returns; if it has none (the length
    is not a number, or the end time leaves the range of [datetime]), the
    exception leaves the setter with the slot written and no event
    published.  Assigning the empty value publishes [no_audio] and does
    nothing else: no probe, no resolver call, no clock read, the heap
    untouched. *)
Theorem current_audio_setter_promotion (a : ref) (st : State) :
  (∃ r st' tr,
      set_current_audio env (Some a) st = (r, st')
      ∧ trace st' = trace st ++ tr
      ∧ match stale_in env st a with
        | Raise e =>
            r = Raise e
            ∧ tr = [Head (Audio.audio_url (heap st !!! a))]
            ∧ _current_audio st' = _current_audio st
            ∧ heap st' = heap st
        | Ok stale =>
            _current_audio st' = Some a
            ∧ ∃ tr1 tr2,
                tr = tr1 ++ Now :: tr2
                ∧ calls tr1 =
                    [Head (Audio.audio_url (heap st !!! a))]
                    ++ (if stale : bool
                        then [GetAudio (Audio.webpage_url (heap st !!! a))]
                        else [])
                ∧ match end_time_of (datetime_now env (length (trace st ++ tr1)))
                                    (Audio.length (heap st' !!! a)) 0 with
                  | Ok t =>
                      r = Ok tt
                      ∧ tr2 = [PostEvent (new_audio a)]
                      ∧ Audio.end_time (heap st' !!! a) = Some t
                  | Raise e => r = Raise e ∧ tr2 = []
                  end
        end)
  ∧ (∃ st',
      set_current_audio env None st = (Ok tt, st')
      ∧ trace st' = trace st ++ [PostEvent no_audio]
      ∧ _current_audio st' = None
      ∧ heap st' = heap st).
Proof.
  split.
  - pose proof (set_current_audio_some a st) as Hrun.
    destruct (stale_in env st a) as [stale|e].
    + destruct Hrun as (h1 & tr1 & Hc & _ & Hrun).
      destruct (end_time_of _ (Audio.length (h1 !!! a)) 0) as [t|e] eqn:Hend.
      * eexists _, _, _. split; [exact Hrun|]. simpl. split; [reflexivity|].
        split; [done|]. exists tr1, [PostEvent (new_audio a)].
        split; [done|]. split; [done|].
        rewrite lookup_total_insert_eq. simpl. by rewrite Hend.
      * eexists _, _, _. split; [exact Hrun|]. simpl. split; [reflexivity|].
        split; [done|]. exists tr1, []. split; [done|]. split; [done|].
        by rewrite Hend.
    + eexists _, _, _. split; [exact Hrun|]. simpl. done.
  - eexists. split; [apply set_current_audio_none|]. done.
Qed.

(** C4 fails as stated: assigning track 4, whose length of [10^12] seconds
    has no end time within the range of [datetime], makes the setter raise
    [OverflowError] after the probe and the clock read, with the track in
    the slot and no [new_audio] published; and assigning track 5, whose
    stream URL has no scheme, makes it raise [MissingSchema] out of
    [is_stale], with nothing assigned, [set_end_time] not called and
    nothing published. *)
Lemma promotion_aborts_without_event :
  (let run := set_current_audio quiet_env (Some 4%nat) fresh_five in
   fst run = Raise OverflowError
   ∧ _current_audio (snd run) = Some 4%nat
   ∧ calls (trace (snd run)) = [Head "https://cdn/4"; Now]
   ∧ posted (trace (snd run)) = [])
  ∧ (let run := set_current_audio strict_env (Some 5%nat) fresh_five in
     fst run = Raise (OtherException "MissingSchema")
     ∧ _current_audio (snd run) = None
     ∧ calls (trace (snd run)) = [Head "cdn/5"]
     ∧ posted (trace (snd run)) = []).
Proof. cbv zeta. split_and!; vm_compute; reflexivity. Qed.

(** C8: when the resolver returns an entry, [refresh] returns [True] and the
    object's stream URL, webpage URL, title, duration and thumbnail are the
    entry's (requester, channels and end time stay); when the resolver
    returns nothing, [refresh] returns [False] and the heap, hence every
    field of the object, is as before.  It raises in neither case. *)
Theorem refresh_replaces_or_keeps (a : ref) (st : State) :
  match get_audio env (length (trace st)) (Audio.webpage_url (heap st !!! a)) with
  | Some e =>
      ∃ st', refresh env a st = (Ok true, st')
             ∧ heap st' !!! a = refreshed e (heap st !!! a)
             ∧ Audio.audio_url (heap st' !!! a) = entry_audio_url e
             ∧ Audio.webpage_url (heap st' !!! a) = entry_webpage_url e
             ∧ Audio.title (heap st' !!! a) = entry_title e
             ∧ Audio.length (heap st' !!! a) = entry_length e
             ∧ Audio.thumbnail (heap st' !!! a) = entry_thumbnail e
  | None =>
      ∃ st', refresh env a st = (Ok false, st')
             ∧ heap st' = heap st
  end.
Proof.
  destruct (get_audio env _ _) as [e|] eqn:Hget.
  - eexists. split; [by apply refresh_found|]. simpl.
    rewrite lookup_total_insert_eq. done.
  - eexists. split; [by apply refresh_missing|]. done.
Qed.

(** ** The queue operations, one run each *)

Opaque set_current_audio.

(** Replaces the run of the setter in the goal by its outcome, one goal for
    the setter returning and one for it raising. *)
Ltac setter_step :=
  match goal with
  | |- context [set_current_audio ?e ?o ?s] =>
      let r := fresh "r" in
      let c := fresh "slot" in
      let h := fresh "h" in
      let tr := fresh "tr" in
      let Ho := fresh "Hout" in
      destruct (set_current_audio_run o s) as (r & c & h & tr & -> & Ho);
      simpl in Ho; destruct r as [[]|?]; simpl
  end.

(** Closes the goal left by [setter_step]: after a returning setter the
    caller wrote one log line, after a raising one nothing. *)
Ltac close_run :=
  first
    [ eexists (Ok tt), _, _, (_ ++ [_]); rewrite <- app_assoc;
      split; [reflexivity|]; apply setter_outcome_log; eassumption
    | eexists (Raise _), _, _, _; split; [reflexivity|]; eassumption ].

Lemma _add_to_previous_queue_run (c : ref) (st : State) :
  _add_to_previous_queue c st =
    match pushed (max_previous_queue_size st) (previous_queue st) c with
    | Some p' => (Ok tt, set_previous_queue p' st)
    | None => (Raise IndexError, st)
    end.
Proof.
  unfold _add_to_previous_queue, pushed, previous_queue_popleft. munfold. simpl.
  destruct (_ <? _); [|done]. by destruct (previous_queue st).
Qed.

(** [get_next_audio]: the push to the history and the pop of the forward
    queue come first; the setter then writes the slot, or raises. *)
Lemma get_next_audio_run (st : State) :
  match retired (max_previous_queue_size st) (previous_queue st) (_current_audio st) with
  | None => get_next_audio env st = (Raise IndexError, st)
  | Some p' =>
      ∃ r c h tr,
        get_next_audio env st =
          (result_as r (head (queue st)),
           mkState (max_queue_size st) (max_previous_queue_size st)
                   (tail (queue st)) p' c h (trace st ++ tr))
        ∧ setter_outcome env (head (queue st)) (_current_audio st) (heap st)
                         r c h tr
  end.
Proof.
  unfold get_next_audio, current_audio, retired, queue_popleft.
  destruct (_current_audio st) as [c|] eqn:Hc.
  - pose proof (_add_to_previous_queue_run c st) as Hpush.
    destruct (pushed _ _ c) as [p'|].
    + destruct (queue st) as [|a q] eqn:Hq; munfold;
        repeat (progress (simpl; rewrite ?Hq, ?Hc, ?Hpush));
        setter_step; rewrite ?Hq, ?Hc in *; close_run.
    + destruct (queue st) as [|a q] eqn:Hq; munfold;
        repeat (progress (simpl; rewrite ?Hq, ?Hc, ?Hpush)); done.
  - destruct (queue st) as [|a q] eqn:Hq; munfold;
      repeat (progress (simpl; rewrite ?Hq, ?Hc));
      setter_step; rewrite ?Hq, ?Hc in *; close_run.
Qed.

Opaque get_next_audio.

Lemma nonempty_by_rev (l : list ref) :
  (0 <? Z.of_nat (length l)) = match rev l with [] => false | _ :: _ => true end.
Proof.
  rewrite <- (length_rev l). by destruct (rev l).
Qed.

Lemma get_previous_audio_run (st : State) :
  match rev (previous_queue st) with
  | [] =>
      get_previous_audio env st =
        (Ok None,
         set_trace (trace st ++
           [Log ERROR "Unable to get previous audio, previous queue is empty"]) st)
  | x :: rp =>
      ∃ r c h tr,
        get_previous_audio env st =
          (result_as r (Some x),
           mkState (max_queue_size st) (max_previous_queue_size st)
                   (slot_list (_current_audio st) ++ queue st) (rev rp)
                   c h (trace st ++ tr))
        ∧ setter_outcome env (Some x) (_current_audio st) (heap st) r c h tr
  end.
Proof.
  unfold get_previous_audio, previous_queue_pop. munfold. simpl.
  rewrite nonempty_by_rev.
  destruct (rev (previous_queue st)) as [|x rp] eqn:Hr; [done|].
  destruct (_current_audio st) as [c|] eqn:Hc;
    repeat (progress (simpl; rewrite ?Hr, ?Hc));
    setter_step; rewrite ?Hc in *; close_run.
Qed.

Lemma _add_to_queue_run (v : pyval) (add_to_start : bool) (st : State) :
  match v with
  | PyAudio a =>
      if Z.of_nat (length (queue st)) <? max_queue_size st then
        let q' := if add_to_start then a :: queue st else queue st ++ [a] in
        match _current_audio st with
        | Some c =>
            _add_to_queue env v add_to_start st =
              (Ok tt,
               set_trace (trace st ++ [Log INFO "Audio added to queue: %s";
                                       PostEvent queue_update])
                 (set_queue q' st))
        | None =>
            ∃ r c h tr,
              _add_to_queue env v add_to_start st =
                (result_as r tt,
                 mkState (max_queue_size st) (max_previous_queue_size st)
                         (tail q') (previous_queue st) c h
                         (trace st ++ Log INFO "Audio added to queue: %s" :: tr))
              ∧ setter_outcome env (head q') None (heap st) r c h tr
        end
      else
        _add_to_queue env v add_to_start st =
          (Ok tt,
           set_trace (trace st ++
             [Log ERROR "Unable to add audio, queue size greater than %s"]) st)
  | _ =>
      _add_to_queue env v add_to_start st =
        (Ok tt,
         set_trace (trace st ++ [Log ERROR "Unable to add audio: Not an Audio object"]) st)
  end.
Proof.
  destruct v as [|a|tag]; [done| |done].
  unfold _add_to_queue, _is_below_max_queue_size, current_audio.
  destruct (_ <? _) eqn:Hlt; munfold; simpl; rewrite Hlt; [|done].
  destruct (_current_audio st) as [c|] eqn:Hc.
  - destruct add_to_start; simpl; rewrite Hc; simpl;
      unfold set_trace, set_queue; simpl; by rewrite <- app_assoc.
  - destruct add_to_start; simpl; rewrite Hc; simpl;
      match goal with
      | |- context [get_next_audio env ?s] =>
          pose proof (get_next_audio_run s) as Hnext
      end;
      simpl in Hnext; rewrite Hc in Hnext; simpl in Hnext;
      destruct Hnext as (r & c & h & tr & -> & Hout); simpl;
      exists r, c, h, tr; rewrite <- app_assoc;
      (split; [by destruct r|done]).
Qed.

Opaque _add_to_queue.

(** [restart_queue]: [tr0] is what its [append_left] leaves in the trace,
    [tr] what the setter inside [get_next_audio] leaves. *)
Lemma restart_queue_run (st : State) :
  match retired (max_previous_queue_size st) [] (_current_audio st) with
  | None =>
      ∃ tr,
        restart_queue env st =
          (Raise IndexError,
           mkState (max_queue_size st) (max_previous_queue_size st)
                   (previous_queue st ++ requeued st) [] (_current_audio st)
                   (heap st) (trace st ++ tr))
  | Some p' =>
      ∃ r c h tr0 tr,
        restart_queue env st =
          (result_as r tt,
           mkState (max_queue_size st) (max_previous_queue_size st)
                   (tail (previous_queue st ++ requeued st)) p' c h
                   (trace st ++ tr0 ++ tr))
        ∧ setter_outcome env (head (previous_queue st ++ requeued st))
                         (_current_audio st) (heap st) r c h tr
  end.
Proof.
  unfold restart_queue, append_left, requeued. munfold. simpl.
  destruct (_current_audio st) as [c|] eqn:Hc; simpl.
  - pose proof (_add_to_queue_run (PyAudio c) true st) as Hadd.
    simpl in Hadd. rewrite Hc in Hadd.
    destruct (_ <? _); rewrite Hadd; simpl;
      match goal with
      | |- context [get_next_audio env ?s] =>
          pose proof (get_next_audio_run s) as Hnext
      end;
      simpl in Hnext; rewrite Hc in Hnext; simpl in Hnext;
      (destruct (pushed _ [] c) as [p'|];
       [ destruct Hnext as (r & c' & h & tr & -> & Hout); simpl;
         eexists r, c', h, _, tr; rewrite <- app_assoc;
         (split; [by destruct r|done])
       | rewrite Hnext; eexists;
         unfold set_previous_queue, set_queue, set_trace; simpl;
         rewrite Hc; reflexivity ]).
  - pose proof (_add_to_queue_run PyNone true st) as Hadd.
    simpl in Hadd. rewrite Hadd. simpl.
    match goal with
    | |- context [get_next_audio env ?s] =>
        pose proof (get_next_audio_run s) as Hnext
    end.
    simpl in Hnext. rewrite Hc in Hnext. simpl in Hnext.
    destruct Hnext as (r & c' & h & tr & -> & Hout). simpl.
    eexists r, c', h, _, tr. rewrite <- app_assoc.
    split; [by destruct r|done].
Qed.

Lemma remove_current_audio_run (st : State) :
  match _current_audio st with
  | None => remove_current_audio env st = (Ok None, st)
  | Some c0 =>
      ∃ r c h tr,
        remove_current_audio env st =
          (result_as r (Some (Audio.title (heap st !!! c0))),
           mkState (max_queue_size st) (max_previous_queue_size st)
                   (tail (queue st)) (previous_queue st) c h
                   (trace st ++ tr))
        ∧ setter_outcome env (head (queue st)) None (heap st) r c h tr
  end.
Proof.
  unfold remove_current_audio, get_current_audio, current_audio. munfold. simpl.
  destruct (_current_audio st) as [c0|] eqn:Hc; [|done]. simpl.
  match goal with
  | |- context [get_next_audio env ?s] =>
      pose proof (get_next_audio_run s) as Hnext
  end.
  simpl in Hnext. destruct Hnext as (r & c & h & tr & -> & Hout). simpl.
  exists r, c, h, tr. split; [by destruct r|done].
Qed.

Lemma reset_queue_run (st : State) :
  reset_queue st =
    (Ok tt,
     mkState (max_queue_size st) (max_previous_queue_size st) [] [] None
             (heap st)
             (trace st ++ [PostEvent queue_update; PostEvent queue_update])).
Proof.
  unfold reset_queue, clear_next_queue, clear_previous_queue. munfold. simpl.
  unfold set__current_audio; simpl. by rewrite <- app_assoc.
Qed.

(** *** In a world that promotes

    There the setter returns, so each operation has one run, and the world
    and the heap promote afterwards as they did before. *)

Lemma get_next_audio_returns (st : State) :
  promotes env (heap st) →
  match retired (max_previous_queue_size st) (previous_queue st) (_current_audio st) with
  | None => get_next_audio env st = (Raise IndexError, st)
  | Some p' =>
      ∃ h tr,
        get_next_audio env st =
          (Ok (head (queue st)),
           mkState (max_queue_size st) (max_previous_queue_size st)
                   (tail (queue st)) p' (head (queue st)) h (trace st ++ tr))
        ∧ posted tr = [PostEvent (event_of_slot (head (queue st)))]
        ∧ promotes env h
  end.
Proof.
  intros Hp. pose proof (get_next_audio_run st) as Hrun.
  destruct (retired _ _ _); [|done].
  destruct Hrun as (r & c & h & tr & -> & Hout).
  destruct (setter_outcome_returns _ _ _ _ _ _ _ Hp Hout) as (-> & -> & ? & ?).
  by exists h, tr.
Qed.

Lemma get_previous_audio_returns (st : State) :
  promotes env (heap st) →
  match rev (previous_queue st) with
  | [] =>
      get_previous_audio env st =
        (Ok None,
         set_trace (trace st ++
           [Log ERROR "Unable to get previous audio, previous queue is empty"]) st)
  | x :: rp =>
      ∃ h tr,
        get_previous_audio env st =
          (Ok (Some x),
           mkState (max_queue_size st) (max_previous_queue_size st)
                   (slot_list (_current_audio st) ++ queue st) (rev rp)
                   (Some x) h (trace st ++ tr))
        ∧ posted tr = [PostEvent (new_audio x)]
        ∧ promotes env h
  end.
Proof.
  intros Hp. pose proof (get_previous_audio_run st) as Hrun.
  destruct (rev (previous_queue st)) as [|x rp]; [done|].
  destruct Hrun as (r & c & h & tr & -> & Hout).
  destruct (setter_outcome_returns _ _ _ _ _ _ _ Hp Hout) as (-> & -> & ? & ?).
  by exists h, tr.
Qed.

Lemma _add_to_queue_returns (v : pyval) (add_to_start : bool) (st : State) :
  promotes env (heap st) →
  match v with
  | PyAudio a =>
      if Z.of_nat (length (queue st)) <? max_queue_size st then
        let q' := if add_to_start then a :: queue st else queue st ++ [a] in
        match _current_audio st with
        | Some c =>
            _add_to_queue env v add_to_start st =
              (Ok tt,
               set_trace (trace st ++ [Log INFO "Audio added to queue: %s";
                                       PostEvent queue_update])
                 (set_queue q' st))
        | None =>
            ∃ h tr,
              _add_to_queue env v add_to_start st =
                (Ok tt,
                 mkState (max_queue_size st) (max_previous_queue_size st)
                         (tail q') (previous_queue st) (head q') h
                         (trace st ++ Log INFO "Audio added to queue: %s" :: tr))
              ∧ posted tr = [PostEvent (event_of_slot (head q'))]
              ∧ promotes env h
        end
      else
        _add_to_queue env v add_to_start st =
          (Ok tt,
           set_trace (trace st ++
             [Log ERROR "Unable to add audio, queue size greater than %s"]) st)
  | _ =>
      _add_to_queue env v add_to_start st =
        (Ok tt,
         set_trace (trace st ++ [Log ERROR "Unable to add audio: Not an Audio object"]) st)
  end.
Proof.
  intros Hp. pose proof (_add_to_queue_run v add_to_start st) as Hrun.
  destruct v as [|a|tag]; [done| |done].
  destruct (_ <? _); [|done]. cbv beta iota zeta in *.
  destruct (_current_audio st); [done|].
  destruct Hrun as (r & c & h & tr & -> & Hout).
  destruct (setter_outcome_returns _ _ _ _ _ _ _ Hp Hout) as (-> & -> & ? & ?).
  by exists h, tr.
Qed.

Lemma restart_queue_returns (st : State) :
  promotes env (heap st) →
  match retired (max_previous_queue_size st) [] (_current_audio st) with
  | None =>
      ∃ tr,
        restart_queue env st =
          (Raise IndexError,
           mkState (max_queue_size st) (max_previous_queue_size st)
                   (previous_queue st ++ requeued st) [] (_current_audio st)
                   (heap st) (trace st ++ tr))
  | Some p' =>
      ∃ h tr,
        restart_queue env st =
          (Ok tt,
           mkState (max_queue_size st) (max_previous_queue_size st)
                   (tail (previous_queue st ++ requeued st)) p'
                   (head (previous_queue st ++ requeued st)) h
                   (trace st ++ tr))
        ∧ promotes env h
  end.
Proof.
  intros Hp. pose proof (restart_queue_run st) as Hrun.
  destruct (retired _ _ _); [|done].
  destruct Hrun as (r & c & h & tr0 & tr & -> & Hout).
  destruct (setter_outcome_returns _ _ _ _ _ _ _ Hp Hout) as (-> & -> & ? & ?).
  by exists h, (tr0 ++ tr).
Qed.

Lemma remove_current_audio_returns (st : State) :
  promotes env (heap st) →
  match _current_audio st with
  | None => remove_current_audio env st = (Ok None, st)
  | Some c =>
      ∃ h tr,
        remove_current_audio env st =
          (Ok (Some (Audio.title (heap st !!! c))),
           mkState (max_queue_size st) (max_previous_queue_size st)
                   (tail (queue st)) (previous_queue st) (head (queue st)) h
                   (trace st ++ tr))
        ∧ posted tr = [PostEvent (event_of_slot (head (queue st)))]
        ∧ promotes env h
  end.
Proof.
  intros Hp. pose proof (remove_current_audio_run st) as Hrun.
  destruct (_current_audio st) as [c0|]; [|done].
  destruct Hrun as (r & c & h & tr & -> & Hout).
  destruct (setter_outcome_returns _ _ _ _ _ _ _ Hp Hout) as (-> & -> & ? & ?).
  by exists h, tr.
Qed.

Transparent set_current_audio get_next_audio _add_to_queue set_end_time.

Lemma slot_head_tail (l : list ref) : slot_list (head l) ++ tail l = l.
Proof. by destruct l. Qed.

Lemma head_None_tail (l : list ref) : head l = None → tail l = [].
Proof. by destruct l. Qed.

Lemma length_tail_le (l : list ref) : (length (tail l) ≤ length l)%nat.
Proof. destruct l; simpl; lia. Qed.

Lemma pushed_snoc (mp : Z) (p p' : list ref) (c : ref) :
  pushed mp p c = Some p' → ∃ x, p' = x ++ [c].
Proof.
  unfold pushed. destruct (_ <? _); [destruct p as [|y p]|]; intros [= <-]; eauto.
Qed.

Lemma pushed_raises (mp : Z) (p : list ref) (c : ref) :
  pushed mp p c = None ↔ mp < 0 ∧ p = [].
Proof.
  unfold pushed. destruct (Z.ltb_spec mp (Z.of_nat (length p))) as [Hlt|Hge].
  - destruct p as [|y p]; simpl in *; split; try done; try lia.
    by intros [_ ?].
  - split; [done|]. intros [? ->]. simpl in Hge. lia.
Qed.

Lemma retired_returns (mp : Z) (p : list ref) (o : option ref) :
  0 ≤ mp → ∃ p', retired mp p o = Some p'.
Proof.
  intros Hmp. destruct o as [c|]; simpl; [|by eexists].
  destruct (pushed mp p c) as [p'|] eqn:Hpush; [by eexists|].
  apply pushed_raises in Hpush. lia.
Qed.

Lemma snd_bind_unit {A} (m : M A) (st : State) :
  snd ((m ≫= λ _, mret tt) st) = snd (m st).
Proof. unfold mbind, M_bind, mret, M_ret. by destruct (m st) as [[]]. Qed.

Lemma fst_bind_unit {A} (m : M A) (st : State) :
  fst ((m ≫= λ _, mret tt) st) = result_as (fst (m st)) tt.
Proof. unfold mbind, M_bind, mret, M_ret. by destruct (m st) as [[]]. Qed.

Lemma bind_unit_returns {A} (m : M A) (st st' : State) (a : A) :
  m st = (Ok a, st') → (m ≫= λ _, mret tt) st = (Ok tt, st').
Proof. intros H. by rewrite (bind_ok _ _ _ _ _ H). Qed.

Lemma nonempty_snoc (l : list ref) : l ≠ [] → ∃ p x, l = p ++ [x].
Proof.
  intros Hne. destruct (rev l) as [|x rp] eqn:Hrev.
  - apply (f_equal (@rev ref)) in Hrev. rewrite rev_involutive in Hrev. done.
  - exists (rev rp), x. by rewrite <- (rev_involutive l), Hrev.
Qed.

(** ** Navigation *)

(** C9: with an empty history [get_previous_audio] returns [None] without
    raising; the forward queue, the history, the current slot and every
    [Audio] object are as before, and no event is published (the one thing
    added to the trace is the error log line). *)
Theorem get_previous_audio_empty_history (st : State) :
  previous_queue st = [] →
  ∃ st',
    get_previous_audio env st = (Ok None, st')
    ∧ st' = set_trace (trace st ++
              [Log ERROR "Unable to get previous audio, previous queue is empty"]) st
    ∧ queue st' = queue st
    ∧ previous_queue st' = previous_queue st
    ∧ _current_audio st' = _current_audio st
    ∧ heap st' = heap st
    ∧ posted (trace st') = posted (trace st).
Proof.
  intros Hp. pose proof (get_previous_audio_run st) as Hrun.
  rewrite Hp in Hrun. simpl in Hrun.
  eexists. split; [exact Hrun|]. simpl. split_and!; try done.
  rewrite posted_app. simpl. by rewrite app_nil_r.
Qed.

(** C5, as the code has it: when a track [c] is current and
    [get_next_audio] followed at once by [get_previous_audio] returns, it
    returns [c], [c] is in the current slot again and the forward queue is
    exactly as it was, head first.  The pair does return when the world and
    the heap promote (no probe raises past [is_stale], every length has an
    end time), unless the history bound is negative and the history empty,
    where [get_next_audio] raises [IndexError]. *)
Theorem next_then_previous_restores (st : State) (c : ref) :
  _current_audio st = Some c →
  (∀ r st',
     (get_next_audio env;; get_previous_audio env) st = (Ok r, st') →
     r = Some c ∧ _current_audio st' = Some c ∧ queue st' = queue st)
  ∧ (promotes env (heap st) →
     0 ≤ max_previous_queue_size st ∨ previous_queue st ≠ [] →
     ∃ st',
       (get_next_audio env;; get_previous_audio env) st = (Ok (Some c), st')).
Proof.
  intros Hc. pose proof (get_next_audio_run st) as Hnext.
  rewrite Hc in Hnext. simpl in Hnext.
  destruct (pushed _ _ c) as [p'|] eqn:Hpush.
  - destruct Hnext as (r1 & c1 & h1 & tr1 & Hnext & Hout1).
    destruct (pushed_snoc _ _ _ _ Hpush) as [x ->].
    pose proof (get_previous_audio_run
      (mkState (max_queue_size st) (max_previous_queue_size st)
               (tail (queue st)) (x ++ [c]) c1 h1 (trace st ++ tr1))) as Hprev.
    simpl in Hprev. rewrite rev_app_distr in Hprev. simpl in Hprev.
    destruct Hprev as (r2 & c2 & h2 & tr2 & Hprev & Hout2).
    split.
    + intros r st' Hrun. destruct r1 as [[]|e1]; simpl in Hnext.
      * erewrite bind_ok in Hrun; [|exact Hnext]. rewrite Hprev in Hrun.
        destruct r2 as [[]|e2]; simpl in Hrun; [|done].
        injection Hrun as <- <-. simpl.
        unfold setter_outcome in Hout1, Hout2.
        destruct Hout1 as (_ & -> & _). destruct Hout2 as (_ & -> & _).
        by rewrite slot_head_tail.
      * erewrite bind_raise in Hrun; [|exact Hnext]. done.
    + intros Hp _.
      destruct (setter_outcome_returns _ _ _ _ _ _ _ Hp Hout1)
        as (-> & -> & _ & Hp1).
      destruct (setter_outcome_returns _ _ _ _ _ _ _ Hp1 Hout2)
        as (-> & -> & _ & _).
      erewrite bind_ok; [|exact Hnext]. rewrite Hprev. by eexists.
  - split.
    + intros r st' Hrun. erewrite bind_raise in Hrun; [|exact Hnext]. done.
    + intros _ Hok. apply pushed_raises in Hpush as [Hneg Hnil].
      destruct Hok as [?|?]; [lia|done].
Qed.

(** C5 fails as stated: in the idle state a queue is in after its one track
    has ended, the slot is empty before the pair and holds track 1 after
    it; and with track 1 playing and a track without an end time waiting,
    [get_next_audio] raises while making that track current, so that the
    pair ends with that track in the slot and the forward queue empty. *)
Lemma next_then_previous_does_not_restore :
  (let run := (get_next_audio quiet_env;; get_previous_audio quiet_env)
                idle_after_one in
   _current_audio idle_after_one = None
   ∧ fst run = Ok (Some 1%nat)
   ∧ _current_audio (snd run) = Some 1%nat
   ∧ _current_audio (snd run) ≠ _current_audio idle_after_one)
  ∧ (let run := (get_next_audio quiet_env;; get_previous_audio quiet_env)
                  endless_waits in
     _current_audio endless_waits = Some 1%nat
     ∧ queue endless_waits = [4%nat]
     ∧ fst run = Raise OverflowError
     ∧ _current_audio (snd run) = Some 4%nat
     ∧ queue (snd run) = []).
Proof.
  cbv zeta. split_and!; try (vm_compute; reflexivity).
  vm_compute. discriminate.
Qed.

(** ** Admission *)

(** C10: a value that is not an [Audio] instance ([None] included) makes
    [append] and [append_left] return without raising, with the forward
    queue, the history, the current slot and the heap as before and no event
    published: the trace gains one error log line.  Hence [restart_queue]
    with an empty current slot adds nothing to the queue: the forward queue
    afterwards is the old history followed by the old forward queue without
    its first element, the history is empty, and the slot is empty or holds
    that first element; when [restart_queue] returns, what is current and
    queued is the old history followed by the old forward queue, element
    for element.  It returns when the world and the heap promote. *)
Theorem non_audio_is_rejected (v : pyval) (st : State) :
  (∀ a, v ≠ PyAudio a) →
  let st' := set_trace (trace st ++
               [Log ERROR "Unable to add audio: Not an Audio object"]) st in
  append env v st = (Ok tt, st')
  ∧ append_left env v st = (Ok tt, st')
  ∧ posted (trace st') = posted (trace st)
  ∧ (_current_audio st = None →
     ∃ r st'',
       restart_queue env st = (r, st'')
       ∧ queue st'' = tail (previous_queue st ++ queue st)
       ∧ previous_queue st'' = []
       ∧ (_current_audio st'' = None
          ∨ _current_audio st'' = head (previous_queue st ++ queue st))
       ∧ (r = Ok tt →
          slot_list (_current_audio st'') ++ queue st''
          = previous_queue st ++ queue st)
       ∧ (promotes env (heap st) → r = Ok tt)).
Proof.
  intros Hv. simpl. split_and!.
  - destruct v; try done. by destruct (Hv a).
  - destruct v; try done. by destruct (Hv a).
  - rewrite posted_app. simpl. by rewrite app_nil_r.
  - intros Hc. pose proof (restart_queue_run st) as Hrun.
    unfold requeued in Hrun. rewrite Hc in Hrun. simpl in Hrun.
    destruct Hrun as (r & c & h & tr0 & tr & -> & Hout).
    eexists _, _. split; [reflexivity|]. simpl. split_and!; [done|done|..].
    + unfold setter_outcome in Hout. destruct Hout as [_ Hcase].
      destruct r; [right; by destruct Hcase|].
      destruct Hcase as (_ & _ & [->|[-> _]]); [by right|by left].
    + intros Hr. destruct r as [[]|e]; [|done].
      unfold setter_outcome in Hout. destruct Hout as (_ & -> & _).
      by rewrite slot_head_tail.
    + intros Hp.
      by destruct (setter_outcome_returns _ _ _ _ _ _ _ Hp Hout) as (-> & _).
Qed.

(** ** The bound of the forward queue *)

Lemma _add_to_queue_len (v : pyval) (b : bool) (st : State) :
  queue_len (snd (_add_to_queue env v b st)) ≤ Z.max (queue_len st) (max_queue_size st)
  ∧ max_queue_size (snd (_add_to_queue env v b st)) = max_queue_size st.
Proof.
  pose proof (_add_to_queue_run v b st) as Hrun. unfold queue_len.
  destruct v as [|a|tag]; try (rewrite Hrun; simpl; split; [lia|done]).
  destruct (Z.ltb_spec (Z.of_nat (length (queue st))) (max_queue_size st));
    [|rewrite Hrun; simpl; split; [lia|done]].
  cbv beta iota zeta in Hrun. destruct (_current_audio st).
  - rewrite Hrun. simpl. split; [|done].
    destruct b; simpl; rewrite ?length_app; simpl; lia.
  - destruct Hrun as (r & c & h & tr & -> & _). simpl. split; [|done].
    destruct b; simpl; [lia|].
    pose proof (length_tail_le (queue st ++ [a])) as Hle.
    rewrite length_app in Hle. simpl in Hle. lia.
Qed.

Lemma get_next_audio_len (st : State) :
  queue_len (snd (get_next_audio env st)) ≤ queue_len st
  ∧ max_queue_size (snd (get_next_audio env st)) = max_queue_size st.
Proof.
  pose proof (get_next_audio_run st) as Hrun. unfold queue_len.
  destruct (retired _ _ _).
  - destruct Hrun as (r & c & h & tr & -> & _). simpl. split; [|done].
    pose proof (length_tail_le (queue st)). lia.
  - rewrite Hrun. simpl. split; [lia|done].
Qed.

Lemma remove_current_audio_len (st : State) :
  queue_len (snd (remove_current_audio env st)) ≤ queue_len st
  ∧ max_queue_size (snd (remove_current_audio env st)) = max_queue_size st.
Proof.
  pose proof (remove_current_audio_run st) as Hrun. unfold queue_len.
  destruct (_current_audio st) as [c0|].
  - destruct Hrun as (r & c & h & tr & -> & _). simpl. split; [|done].
    pose proof (length_tail_le (queue st)). lia.
  - rewrite Hrun. simpl. split; [lia|done].
Qed.

Lemma exec_op_within_bound (o : op) (st : State) :
  admission_checked o = true →
  queue_len st ≤ max_queue_size st →
  queue_len (snd (exec_op env o st)) ≤ max_queue_size (snd (exec_op env o st))
  ∧ max_queue_size (snd (exec_op env o st)) = max_queue_size st.
Proof.
  intros Hchk Hle.
  destruct o; try done; cbn [exec_op]; rewrite ?snd_bind_unit.
  - destruct (_add_to_queue_len v false st) as [H1 H2].
    unfold append. rewrite H2. split; [lia|done].
  - destruct (_add_to_queue_len v true st) as [H1 H2].
    unfold append_left. rewrite H2. split; [lia|done].
  - destruct (get_next_audio_len st) as [H1 H2]. rewrite H2. split; [lia|done].
  - destruct (remove_current_audio_len st) as [H1 H2]. rewrite H2. split; [lia|done].
  - rewrite reset_queue_run. unfold queue_len in *. simpl. split; [lia|done].
Qed.

(** C3, as the code has it: the bound is checked where tracks come in.
    From a state whose forward queue is within [max_queue_size], any run of
    [append], [append_left], [get_next_audio], [remove_current_audio] and
    [reset_queue] keeps it within the bound.  [get_previous_audio] and
    [restart_queue] put tracks back in front without looking at the bound:
    the first lengthens the queue by at most one, the second by at most the
    length of the history plus one. *)
Theorem forward_queue_bound_at_admission (os : list op) (st : State) :
  (forallb admission_checked os = true →
   queue_len st ≤ max_queue_size st →
   queue_len (run_ops env os st) ≤ max_queue_size st)
  ∧ queue_len (snd (get_previous_audio env st)) ≤ queue_len st + 1
  ∧ queue_len (snd (restart_queue env st))
    ≤ queue_len st + Z.of_nat (length (previous_queue st)) + 1.
Proof.
  split_and!.
  - revert st. induction os as [|o os IH]; intros st Hall Hle; [done|].
    simpl in Hall. apply andb_prop in Hall as [Ho Hos].
    destruct (exec_op_within_bound o st Ho Hle) as [H1 H2].
    cbn [run_ops]. rewrite <- H2. apply IH; [done|]. exact H1.
  - pose proof (get_previous_audio_run st) as Hrun. unfold queue_len.
    destruct (rev (previous_queue st)) as [|x rp].
    + rewrite Hrun. simpl. lia.
    + destruct Hrun as (r & c & h & tr & -> & _). simpl.
      rewrite length_app. destruct (_current_audio st); simpl; lia.
  - pose proof (restart_queue_run st) as Hrun. unfold queue_len.
    assert (Hre : (length (requeued st) ≤ length (queue st) + 1)%nat).
    { unfold requeued. destruct (_current_audio st); [|lia].
      destruct (_ <? _); simpl; lia. }
    destruct (retired _ _ _).
    + destruct Hrun as (r & c & h & tr0 & tr & -> & _). simpl.
      pose proof (length_tail_le (previous_queue st ++ requeued st)) as Hle.
      rewrite length_app in Hle. lia.
    + destruct Hrun as (tr & ->). simpl. rewrite length_app. lia.
Qed.

(** C3 fails as stated: with [max_queue_size = 1], after tracks 1 and 2 have
    been played in turn and track 3 waits, [get_previous_audio] puts track 2
    back in front of it; and after tracks 1, 2, 3 have been started in turn
    and track 4 waits, [restart_queue] puts the history in front of it.
    Both leave two tracks in the forward queue. *)
Lemma forward_queue_exceeds_bound :
  let st1 := run_ops quiet_env
               [OpAppend (PyAudio 1%nat); OpAppend (PyAudio 2%nat); OpGetNextAudio;
                OpAppend (PyAudio 3%nat); OpGetPreviousAudio] (narrow three_tracks) in
  let st2 := run_ops quiet_env
               [OpAppend (PyAudio 1%nat); OpAppend (PyAudio 2%nat); OpGetNextAudio;
                OpAppend (PyAudio 3%nat); OpGetNextAudio;
                OpAppend (PyAudio 4%nat); OpRestartQueue] (narrow three_tracks) in
  (queue st1 = [2%nat; 3%nat] ∧ ¬ queue_len st1 ≤ max_queue_size st1)
  ∧ (queue st2 = [2%nat; 4%nat] ∧ ¬ queue_len st2 ≤ max_queue_size st2).
Proof.
  cbv zeta. split; (split; [vm_compute; reflexivity|]);
    intros H; vm_compute in H; by apply H.
Qed.

(** ** One place per [Audio] instance *)

(** C1, at the input where the code leaves it: with track 1 in the history,
    track 2 playing and track 3 waiting, no instance is held twice;
    [restart_queue] returns, and afterwards track 2 is both in the forward
    queue, where [append_left] put it, and in the history, where
    [get_next_audio] pushed it because the slot still held it. *)
Theorem restart_queue_aliases_the_current_track :
  let st := snd (restart_queue quiet_env playing_second) in
  (_current_audio playing_second, queue playing_second,
   previous_queue playing_second) = (Some 2%nat, [3%nat], [1%nat])
  ∧ no_aliasing playing_second
  ∧ fst (restart_queue quiet_env playing_second) = Ok tt
  ∧ (_current_audio st, queue st, previous_queue st)
    = (Some 1%nat, [2%nat; 3%nat], [2%nat])
  ∧ ¬ no_aliasing st.
Proof.
  cbv zeta. split_and!; try (vm_compute; reflexivity).
  - unfold no_aliasing.
    replace (held playing_second) with [2%nat; 3%nat; 1%nat]
      by (vm_compute; reflexivity).
    repeat first [ rewrite NoDup_cons | rewrite NoDup_nil ].
    set_unfold. intuition lia.
  - unfold no_aliasing.
    replace (held (snd (restart_queue quiet_env playing_second)))
      with [1%nat; 2%nat; 3%nat; 2%nat] by (vm_compute; reflexivity).
    repeat first [ rewrite NoDup_cons | rewrite NoDup_nil ].
    set_unfold. intuition lia.
Qed.

(** ** The history *)

(** What one push does to the length of the history: it grows to
    [max_previous_queue_size + 1] and stays there; the track dropped to make
    room is the oldest. *)
Lemma pushed_length (mp : Z) (p p' : list ref) (c : ref) :
  pushed mp p c = Some p' →
  Z.of_nat (length p') ≤ Z.max (Z.of_nat (length p)) (mp + 1)
  ∧ (mp < Z.of_nat (length p) → ∃ y, p = y :: removelast p').
Proof.
  unfold pushed. destruct (Z.ltb_spec mp (Z.of_nat (length p))) as [Hlt|Hge].
  - destruct p as [|y p]; intros [= <-].
    rewrite length_app. simpl. split; [lia|].
    intros _. exists y. by rewrite removelast_last.
  - intros [= <-]. rewrite length_app. simpl. split; lia.
Qed.

(** C2, at the input where the code leaves it: a queue built with
    [max_previous_queue_size = 1] that has played tracks 1 and 2 and plays
    track 3 keeps both in its history.  [_add_to_previous_queue] evicts only
    when the history is already longer than the bound. *)
Theorem history_exceeds_its_bound :
  let st := run_ops quiet_env
              [OpAppend (PyAudio 1%nat); OpAppend (PyAudio 2%nat);
               OpAppend (PyAudio 3%nat); OpGetNextAudio; OpGetNextAudio]
              (short_memory three_tracks) in
  max_previous_queue_size st = 1
  ∧ previous_queue st = [1%nat; 2%nat]
  ∧ ¬ Z.of_nat (length (previous_queue st)) ≤ max_previous_queue_size st.
Proof.
  cbv zeta. split_and!; [vm_compute; reflexivity..|].
  intros H. vm_compute in H. by apply H.
Qed.

(** ** Restart and replay *)




(** ** Admission *)

Lemma _add_to_queue_inv (v : pyval) (b : bool) (st : State) :
  is_Some (_current_audio st) ∨ promotes env (heap st) →
  ∃ st',
    _add_to_queue env v b st = (Ok tt, st')
    ∧ append_inv (if passes_guards st v then 1 else 0) st st'
    ∧ (is_Some (_current_audio st') ∨ promotes env (heap st')).
Proof.
  intros Hok. pose proof (_add_to_queue_run v b st) as Hrun.
  assert (Hrej : ∀ msg,
    passes_guards st v = false →
    _add_to_queue env v b st = (Ok tt, set_trace (trace st ++ [Log ERROR msg]) st) →
    ∃ st',
      _add_to_queue env v b st = (Ok tt, st')
      ∧ append_inv (if passes_guards st v then 1 else 0) st st'
      ∧ (is_Some (_current_audio st') ∨ promotes env (heap st'))).
  { intros msg -> ->. eexists. split; [done|]. unfold append_inv. simpl.
    split_and!; [lia|done|done]. }
  destruct v as [|a|tag]; [by eapply Hrej| |by eapply Hrej].
  cbn [passes_guards] in *.
  destruct (_ <? _) eqn:Hlt; [|by eapply Hrej].
  cbv beta iota zeta in Hrun. destruct (_current_audio st) as [c|] eqn:Hc.
  - rewrite Hrun. eexists. split; [done|]. unfold append_inv. simpl.
    rewrite Hc. split_and!; [|done|by left].
    destruct b; simpl; rewrite ?length_app; simpl; lia.
  - destruct Hok as [[? ?]|Hp]; [done|].
    destruct Hrun as (r & c & h & tr & -> & Hout).
    destruct (setter_outcome_returns _ _ _ _ _ _ _ Hp Hout)
      as (-> & -> & _ & Hp').
    eexists. split; [done|]. unfold append_inv. simpl. rewrite Hc.
    split_and!; [|by destruct b, (queue st)|by right].
    destruct b; simpl; [lia|].
    destruct (queue st); simpl; rewrite ?length_app; simpl; lia.
Qed.




(** * Beyond the claims *)

(** ** What every call keeps *)

Lemma keeps_refl (st : State) : keeps st st.
Proof. unfold keeps. done. Qed.

Lemma keeps_trace (st : State) (tr : list effect) : keeps st (set_trace tr st).
Proof. unfold keeps. done. Qed.

Lemma retired_within_cap (mp : Z) (p p' : list ref) (o : option ref) :
  retired mp p o = Some p' →
  Z.of_nat (length p) ≤ Z.max 0 (mp + 1) →
  Z.of_nat (length p') ≤ Z.max 0 (mp + 1).
Proof.
  destruct o as [c|]; simpl; [|by intros [= <-]].
  intros Hpush Hle. apply pushed_length in Hpush as [Hlen _]. lia.
Qed.

Lemma get_next_audio_keeps (st : State) : keeps st (snd (get_next_audio env st)).
Proof.
  pose proof (get_next_audio_run st) as Hrun.
  destruct (retired _ _ _) as [p'|] eqn:Hret; [|rewrite Hrun; apply keeps_refl].
  destruct Hrun as (r & c & h & tr & -> & _).
  unfold keeps, hist_len, history_cap. simpl. split_and!; [done|done|].
  by apply (retired_within_cap _ _ _ _ Hret).
Qed.

Lemma get_previous_audio_keeps (st : State) :
  keeps st (snd (get_previous_audio env st)).
Proof.
  pose proof (get_previous_audio_run st) as Hrun.
  destruct (rev (previous_queue st)) as [|x rp] eqn:Hrev;
    [rewrite Hrun; apply keeps_trace|].
  destruct Hrun as (r & c & h & tr & -> & _).
  unfold keeps, hist_len, history_cap. simpl. split_and!; [done|done|].
  intros Hle. apply (f_equal length) in Hrev.
  rewrite length_rev in Hrev. simpl in Hrev. rewrite length_rev. lia.
Qed.

Lemma _add_to_queue_keeps (v : pyval) (b : bool) (st : State) :
  keeps st (snd (_add_to_queue env v b st)).
Proof.
  pose proof (_add_to_queue_run v b st) as Hrun.
  destruct v as [|a|tag]; try (rewrite Hrun; apply keeps_trace).
  destruct (_ <? _); [|rewrite Hrun; apply keeps_trace].
  cbv beta iota zeta in Hrun. destruct (_current_audio st) as [c0|] eqn:Hc.
  - rewrite Hrun. unfold keeps, hist_len, history_cap. simpl. done.
  - destruct Hrun as (r & c & h & tr & -> & _).
    unfold keeps, hist_len, history_cap. simpl. done.
Qed.

Lemma restart_queue_keeps (st : State) : keeps st (snd (restart_queue env st)).
Proof.
  pose proof (restart_queue_run st) as Hrun.
  destruct (retired _ _ _) as [p'|] eqn:Hret.
  - destruct Hrun as (r & c & h & tr0 & tr & -> & _).
    unfold keeps, hist_len, history_cap. simpl. split_and!; [done|done|].
    intros _. apply (retired_within_cap _ _ _ _ Hret). simpl. lia.
  - destruct Hrun as (tr & ->). unfold keeps, hist_len, history_cap. simpl.
    split_and!; [done|done|lia].
Qed.

Lemma remove_current_audio_keeps (st : State) :
  keeps st (snd (remove_current_audio env st)).
Proof.
  pose proof (remove_current_audio_run st) as Hrun.
  destruct (_current_audio st) as [c0|] eqn:Hc; [|rewrite Hrun; apply keeps_refl].
  destruct Hrun as (r & c & h & tr & -> & _).
  unfold keeps, hist_len, history_cap. simpl. done.
Qed.

Lemma exec_op_keeps (o : op) (st : State) : keeps st (snd (exec_op env o st)).
Proof.
  destruct o; cbn [exec_op]; rewrite ?snd_bind_unit.
  - apply _add_to_queue_keeps.
  - apply _add_to_queue_keeps.
  - apply get_next_audio_keeps.
  - apply get_previous_audio_keeps.
  - apply restart_queue_keeps.
  - apply remove_current_audio_keeps.
  - rewrite reset_queue_run. unfold keeps, hist_len, history_cap. simpl.
    split_and!; [done|done|lia].
Qed.

Lemma run_ops_keeps (os : list op) : ∀ st : State, keeps st (run_ops env os st).
Proof.
  induction os as [|o os IH]; intros st; [apply keeps_refl|].
  cbn [run_ops]. destruct (exec_op_keeps o st) as (H1 & H2 & H3).
  destruct (IH (snd (exec_op env o st))) as (H1' & H2' & H3').
  unfold keeps, history_cap in *. rewrite H2 in H3'.
  split_and!; [congruence|congruence|auto].
Qed.

(** X1: no call of the public interface changes the two bounds the queue
    was built with. *)
Theorem bounds_are_constant (os : list op) (st : State) :
  max_queue_size (run_ops env os st) = max_queue_size st
  ∧ max_previous_queue_size (run_ops env os st) = max_previous_queue_size st.
Proof. destruct (run_ops_keeps os st) as (? & ? & _). done. Qed.

(** X2: in every state a caller can reach from a fresh queue, the history
    holds at most [max_previous_queue_size + 1] tracks (none when that bound
    is negative). *)
Theorem history_within_cap (os : list op) (mq mp : Z) (h : gmap ref Audio.t) :
  hist_len (run_ops env os (init mq mp h)) ≤ Z.max 0 (mp + 1).
Proof.
  destruct (run_ops_keeps os (init mq mp h)) as (_ & _ & Hcap).
  apply Hcap. unfold hist_len, history_cap. simpl. lia.
Qed.

(** *** Nothing waits behind an empty slot *)

Lemma exec_op_no_backlog (o : op) (st : State) :
  probes_answer env →
  no_backlog_when_idle st → no_backlog_when_idle (snd (exec_op env o st)).
Proof.
  intros Hprobe Hidle. unfold no_backlog_when_idle in *.
  destruct o; cbn [exec_op]; rewrite ?snd_bind_unit.
  - unfold append. pose proof (_add_to_queue_run v false st) as Hrun.
    destruct v as [|a|tag]; try (by rewrite Hrun).
    destruct (_ <? _); [|by rewrite Hrun].
    cbv beta iota zeta in Hrun. destruct (_current_audio st) as [c0|] eqn:Hc.
    + rewrite Hrun. simpl. by rewrite Hc.
    + destruct Hrun as (r & c & h & tr & -> & Hout). simpl.
      rewrite (setter_outcome_slot _ _ _ _ _ _ _ Hprobe Hout).
      apply head_None_tail.
  - unfold append_left. pose proof (_add_to_queue_run v true st) as Hrun.
    destruct v as [|a|tag]; try (by rewrite Hrun).
    destruct (_ <? _); [|by rewrite Hrun].
    cbv beta iota zeta in Hrun. destruct (_current_audio st) as [c0|] eqn:Hc.
    + rewrite Hrun. simpl. by rewrite Hc.
    + destruct Hrun as (r & c & h & tr & -> & Hout). simpl.
      rewrite (setter_outcome_slot _ _ _ _ _ _ _ Hprobe Hout).
      apply head_None_tail.
  - pose proof (get_next_audio_run st) as Hrun.
    destruct (retired _ _ _); [|by rewrite Hrun].
    destruct Hrun as (r & c & h & tr & -> & Hout). simpl.
    rewrite (setter_outcome_slot _ _ _ _ _ _ _ Hprobe Hout).
    apply head_None_tail.
  - pose proof (get_previous_audio_run st) as Hrun.
    destruct (rev (previous_queue st)) as [|x rp]; [by rewrite Hrun|].
    destruct Hrun as (r & c & h & tr & -> & Hout). simpl.
    by rewrite (setter_outcome_slot _ _ _ _ _ _ _ Hprobe Hout).
  - pose proof (restart_queue_run st) as Hrun.
    destruct (retired _ _ _) eqn:Hret.
    + destruct Hrun as (r & c & h & tr0 & tr & -> & Hout). simpl.
      rewrite (setter_outcome_slot _ _ _ _ _ _ _ Hprobe Hout).
      apply head_None_tail.
    + destruct Hrun as (tr & ->). simpl. intros Hnone.
      by rewrite Hnone in Hret.
  - pose proof (remove_current_audio_run st) as Hrun.
    destruct (_current_audio st) as [c0|] eqn:Hc.
    + destruct Hrun as (r & c & h & tr & -> & Hout). simpl.
      rewrite (setter_outcome_slot _ _ _ _ _ _ _ Hprobe Hout).
      apply head_None_tail.
    + rewrite Hrun. simpl. by rewrite Hc.
  - by rewrite reset_queue_run.
Qed.

(** X3: where no probe raises past [is_stale], in every state a caller can
    reach from a fresh queue an empty current slot means an empty forward
    queue: the queue is never idle while tracks wait, whether the calls
    returned or raised. *)
Theorem idle_means_nothing_waits (os : list op) (mq mp : Z) (h : gmap ref Audio.t) :
  probes_answer env →
  _current_audio (run_ops env os (init mq mp h)) = None →
  queue (run_ops env os (init mq mp h)) = [].
Proof.
  intros Hprobe.
  assert (Hrun : ∀ os st, no_backlog_when_idle st →
                          no_backlog_when_idle (run_ops env os st)).
  { clear os. induction os as [|o os IH]; intros st Hidle; [done|].
    cbn [run_ops]. apply IH. by apply exec_op_no_backlog. }
  apply Hrun. by intros _.
Qed.

(** ** Exceptions *)

(** X4: [get_next_audio] raises [IndexError] with nothing called and
    nothing changed exactly when it has to push the current track to an
    empty history whose bound is negative. *)
Theorem get_next_audio_raises_iff (st : State) :
  get_next_audio env st = (Raise IndexError, st)
  ↔ is_Some (_current_audio st)
    ∧ max_previous_queue_size st < 0 ∧ previous_queue st = [].
Proof.
  pose proof (get_next_audio_run st) as Hrun.
  destruct (retired _ _ _) as [p'|] eqn:Hret.
  - destruct Hrun as (r & c & h & tr & -> & Hout). split.
    + intros Heq. exfalso. destruct r as [[]|e]; [done|].
      unfold setter_outcome in Hout. destruct Hout as (_ & Hne & _).
      apply Hne. injection Heq as _ Hst. apply (f_equal trace) in Hst.
      simpl in Hst. rewrite <- (app_nil_r (trace st)) in Hst at 2.
      by apply app_inv_head in Hst.
    + intros ([c0 Hc] & Hneg & Hnil).
      rewrite Hc, Hnil in Hret. simpl in Hret.
      assert (pushed (max_previous_queue_size st) [] c0 = None)
        by (by apply pushed_raises).
      congruence.
  - split; [intros _|done].
    destruct (_current_audio st) as [c0|]; [|done]. simpl in Hret.
    apply pushed_raises in Hret as [? ?]. eauto.
Qed.

(** X5: in a world and heap that promote, with a history bound that is not
    negative, no call of the public interface raises; with any bound, only
    [get_next_audio] and [restart_queue] can. *)
Theorem calls_return (o : op) (st : State) :
  promotes env (heap st) →
  0 ≤ max_previous_queue_size st ∨ pushes_history o = false →
  ∃ st', exec_op env o st = (Ok tt, st').
Proof.
  intros Hp Hok. destruct o; cbn [exec_op].
  - destruct (_add_to_queue_inv v false st) as (st' & Hrun & _); [by right|].
    by exists st'.
  - destruct (_add_to_queue_inv v true st) as (st' & Hrun & _); [by right|].
    by exists st'.
  - destruct Hok as [Hmp|]; [|done].
    pose proof (get_next_audio_returns st Hp) as Hrun.
    destruct (retired_returns _ (previous_queue st) (_current_audio st) Hmp)
      as [p' Hret].
    rewrite Hret in Hrun. destruct Hrun as (h & tr & Hrun & _).
    eexists. by eapply bind_unit_returns.
  - pose proof (get_previous_audio_returns st Hp) as Hrun.
    destruct (rev (previous_queue st)) as [|x rp].
    + eexists. by eapply bind_unit_returns.
    + destruct Hrun as (h & tr & Hrun & _). eexists. by eapply bind_unit_returns.
  - destruct Hok as [Hmp|]; [|done].
    pose proof (restart_queue_returns st Hp) as Hrun.
    destruct (retired_returns _ [] (_current_audio st) Hmp) as [p' Hret].
    rewrite Hret in Hrun. destruct Hrun as (h & tr & Hrun & _). by eexists.
  - pose proof (remove_current_audio_returns st Hp) as Hrun.
    destruct (_current_audio st) as [c0|].
    + destruct Hrun as (h & tr & Hrun & _). eexists. by eapply bind_unit_returns.
    + eexists. by eapply bind_unit_returns.
  - rewrite reset_queue_run. by eexists.
Qed.

(** The world and the heap promote after a call as they did before it. *)
Lemma exec_op_promotes (o : op) (st : State) :
  promotes env (heap st) → promotes env (heap (snd (exec_op env o st))).
Proof.
  intros Hp. destruct o; cbn [exec_op]; rewrite ?snd_bind_unit.
  - unfold append. pose proof (_add_to_queue_returns v false st Hp) as Hrun.
    destruct v as [|a|tag]; try (by rewrite Hrun).
    destruct (_ <? _); [|by rewrite Hrun].
    cbv beta iota zeta in Hrun. destruct (_current_audio st) as [c0|].
    + by rewrite Hrun.
    + by destruct Hrun as (h & tr & -> & _ & ?).
  - unfold append_left. pose proof (_add_to_queue_returns v true st Hp) as Hrun.
    destruct v as [|a|tag]; try (by rewrite Hrun).
    destruct (_ <? _); [|by rewrite Hrun].
    cbv beta iota zeta in Hrun. destruct (_current_audio st) as [c0|].
    + by rewrite Hrun.
    + by destruct Hrun as (h & tr & -> & _ & ?).
  - pose proof (get_next_audio_returns st Hp) as Hrun.
    destruct (retired _ _ _); [|by rewrite Hrun].
    by destruct Hrun as (h & tr & -> & _ & ?).
  - pose proof (get_previous_audio_returns st Hp) as Hrun.
    destruct (rev (previous_queue st)) as [|x rp]; [by rewrite Hrun|].
    by destruct Hrun as (h & tr & -> & _ & ?).
  - pose proof (restart_queue_returns st Hp) as Hrun.
    destruct (retired _ _ _).
    + by destruct Hrun as (h & tr & -> & ?).
    + by destruct Hrun as (tr & ->).
  - pose proof (remove_current_audio_returns st Hp) as Hrun.
    destruct (_current_audio st) as [c0|]; [|by rewrite Hrun].
    by destruct Hrun as (h & tr & -> & _ & ?).
  - by rewrite reset_queue_run.
Qed.

Lemma run_ops_promotes (os : list op) : ∀ st : State,
  promotes env (heap st) → promotes env (heap (run_ops env os st)).
Proof.
  induction os as [|o os IH]; intros st Hp; [done|].
  cbn [run_ops]. apply IH. by apply exec_op_promotes.
Qed.

(** ** Navigation, step by step *)

Lemma get_next_audio_step (st : State) :
  promotes env (heap st) →
  0 ≤ max_previous_queue_size st
  ∨ _current_audio st = None ∨ previous_queue st ≠ [] →
  ∃ st',
    get_next_audio env st = (Ok (head (queue st)), st')
    ∧ _current_audio st' = head (queue st)
    ∧ queue st' = tail (queue st)
    ∧ previous_queue st'
      = match _current_audio st with
        | Some c =>
            (if max_previous_queue_size st <? hist_len st
             then tail (previous_queue st) else previous_queue st) ++ [c]
        | None => previous_queue st
        end
    ∧ posted (trace st')
      = posted (trace st) ++ [PostEvent (event_of_slot (head (queue st)))]
    ∧ promotes env (heap st').
Proof.
  intros Hp Hok. pose proof (get_next_audio_returns st Hp) as Hrun.
  destruct (retired _ _ _) as [p'|] eqn:Hret.
  - destruct Hrun as (h & tr & -> & Hpost & Hp'). eexists. split; [done|]. simpl.
    rewrite posted_app, Hpost. split_and!; try done.
    destruct (_current_audio st) as [c|]; simpl in Hret; [|congruence].
    unfold pushed, hist_len in *.
    destruct (_ <? _); [destruct (previous_queue st)|]; simpl; congruence.
  - destruct (_current_audio st) as [c|]; [|done]. simpl in Hret.
    apply pushed_raises in Hret as [? ?].
    destruct Hok as [?|[?|?]]; [lia|done|done].
Qed.

(** X6: in a world and heap that promote, [get_next_audio] returns unless
    it has to push to an empty history with a negative bound; it returns
    the head of the forward queue ([None] when nothing waits), that is the
    new current slot, and the rest of the forward queue stays; a track that
    was current is now the newest entry of the history, which has lost its
    oldest entry if it was longer than its bound; and exactly one event is
    published, [new_audio] with the new track or [no_audio]. *)
Theorem get_next_audio_advances (st : State) :
  promotes env (heap st) →
  0 ≤ max_previous_queue_size st
  ∨ _current_audio st = None ∨ previous_queue st ≠ [] →
  ∃ st',
    get_next_audio env st = (Ok (head (queue st)), st')
    ∧ _current_audio st' = head (queue st)
    ∧ queue st' = tail (queue st)
    ∧ previous_queue st'
      = match _current_audio st with
        | Some c =>
            (if max_previous_queue_size st <? hist_len st
             then tail (previous_queue st) else previous_queue st) ++ [c]
        | None => previous_queue st
        end
    ∧ posted (trace st')
      = posted (trace st) ++ [PostEvent (event_of_slot (head (queue st)))].
Proof.
  intros Hp Hok.
  destruct (get_next_audio_step st Hp Hok) as (st' & ? & ? & ? & ? & ? & _).
  by exists st'.
Qed.

Lemma get_previous_audio_step (st : State) (p : list ref) (x : ref) :
  promotes env (heap st) →
  previous_queue st = p ++ [x] →
  ∃ st',
    get_previous_audio env st = (Ok (Some x), st')
    ∧ _current_audio st' = Some x
    ∧ previous_queue st' = p
    ∧ queue st' = slot_list (_current_audio st) ++ queue st
    ∧ posted (trace st') = posted (trace st) ++ [PostEvent (new_audio x)]
    ∧ promotes env (heap st').
Proof.
  intros Hp Hprev. pose proof (get_previous_audio_returns st Hp) as Hrun.
  rewrite Hprev, rev_app_distr in Hrun. simpl in Hrun.
  destruct Hrun as (h & tr & -> & Hpost & Hp'). eexists. split; [done|]. simpl.
  by rewrite posted_app, Hpost, rev_involutive.
Qed.

(** X7: in a world and heap that promote, with a history [p ++ [x]],
    [get_previous_audio] returns [x], the newest entry, and makes it
    current; the history becomes [p]; a track that was current goes to the
    head of the forward queue; and exactly one event, [new_audio x], is
    published. *)
Theorem get_previous_audio_steps_back (st : State) (p : list ref) (x : ref) :
  promotes env (heap st) →
  previous_queue st = p ++ [x] →
  ∃ st',
    get_previous_audio env st = (Ok (Some x), st')
    ∧ _current_audio st' = Some x
    ∧ previous_queue st' = p
    ∧ queue st' = slot_list (_current_audio st) ++ queue st
    ∧ posted (trace st') = posted (trace st) ++ [PostEvent (new_audio x)].
Proof.
  intros Hp Hprev.
  destruct (get_previous_audio_step st p x Hp Hprev)
    as (st' & ? & ? & ? & ? & ? & _).
  by exists st'.
Qed.

(** X8: [remove_current_audio] with an empty slot returns [None] and changes
    nothing at all.  With a track in the slot, whether it returns or
    raises, the history is as it was (the removed track is not remembered),
    the forward queue has lost its head, and the slot is empty or holds that
    head; in a world and heap that promote it returns the removed track's
    title, the head of the forward queue is current, and exactly one event
    is published. *)
Theorem remove_current_audio_forgets (st : State) :
  (_current_audio st = None → remove_current_audio env st = (Ok None, st))
  ∧ (∀ c, _current_audio st = Some c →
       previous_queue (snd (remove_current_audio env st)) = previous_queue st
       ∧ queue (snd (remove_current_audio env st)) = tail (queue st)
       ∧ (_current_audio (snd (remove_current_audio env st)) = None
          ∨ _current_audio (snd (remove_current_audio env st))
            = head (queue st))
       ∧ (promotes env (heap st) →
          ∃ st',
            remove_current_audio env st
            = (Ok (Some (Audio.title (heap st !!! c))), st')
            ∧ _current_audio st' = head (queue st)
            ∧ posted (trace st')
              = posted (trace st)
                ++ [PostEvent (event_of_slot (head (queue st)))])).
Proof.
  pose proof (remove_current_audio_run st) as Hrun.
  split.
  - intros Hc. by rewrite Hc in Hrun.
  - intros c0 Hc. rewrite Hc in Hrun.
    destruct Hrun as (r & c & h & tr & Hrun & Hout). rewrite Hrun. simpl.
    split_and!; [done|done| |].
    + unfold setter_outcome in Hout. destruct Hout as [_ Hcase].
      destruct r; [right; by destruct Hcase|].
      destruct Hcase as (_ & _ & [->|[-> _]]); [by right|by left].
    + intros Hp.
      destruct (setter_outcome_returns _ _ _ _ _ _ _ Hp Hout)
        as (-> & -> & Hpost & _).
      eexists. split; [reflexivity|]. simpl. by rewrite posted_app, Hpost.
Qed.

(** X9: [reset_queue] empties the forward queue, the history and the current
    slot, leaves every [Audio] object alone, and publishes two
    [queue_update] events and nothing else: no [no_audio] tells the playback
    driver that nothing is current any more. *)
Theorem reset_queue_is_quiet (st : State) :
  ∃ st',
    reset_queue st = (Ok tt, st')
    ∧ queue st' = [] ∧ previous_queue st' = [] ∧ _current_audio st' = None
    ∧ heap st' = heap st
    ∧ trace st' = trace st ++ [PostEvent queue_update; PostEvent queue_update].
Proof. rewrite reset_queue_run. by eexists. Qed.

(** ** Navigation there and back *)

(** X10: in a world and heap that promote, in a state with a history that
    is within its cap, and no tracks waiting behind an empty slot,
    [get_previous_audio] followed at once by [get_next_audio] returns what
    was current and puts forward queue, history and current slot back
    exactly as they were. *)
Theorem previous_then_next_restores (st : State) :
  promotes env (heap st) →
  previous_queue st ≠ [] →
  hist_len st ≤ max_previous_queue_size st + 1 →
  no_backlog_when_idle st →
  ∃ st',
    (get_previous_audio env;; get_next_audio env) st
    = (Ok (_current_audio st), st')
    ∧ layout st' = layout st.
Proof.
  intros Hp Hne Hcap Hidle. destruct (nonempty_snoc _ Hne) as (p & x & Hprev).
  destruct (get_previous_audio_step st p x Hp Hprev)
    as (s1 & Hback & Hc1 & Hp1 & Hq1 & _ & Hprom1).
  pose proof (get_previous_audio_keeps st) as (Hmq & Hmp & _).
  rewrite Hback in Hmq, Hmp. simpl in Hmq, Hmp.
  erewrite bind_ok; [|exact Hback].
  pose proof (get_next_audio_returns s1 Hprom1) as Hnext.
  rewrite Hc1, Hp1, Hmp in Hnext. simpl in Hnext.
  assert (Hpush : pushed (max_previous_queue_size st) p x = Some (p ++ [x])).
  { unfold pushed. unfold hist_len in Hcap. rewrite Hprev, length_app in Hcap.
    simpl in Hcap.
    by destruct (Z.ltb_spec (max_previous_queue_size st) (Z.of_nat (length p)));
      [lia|]. }
  rewrite Hpush in Hnext. destruct Hnext as (h & tr & -> & _).
  assert (Hhead : head (queue s1) = _current_audio st ∧ tail (queue s1) = queue st).
  { rewrite Hq1. destruct (_current_audio st) eqn:Hc; simpl; [done|].
    by rewrite (Hidle Hc). }
  destruct Hhead as [-> ->]. eexists. split; [done|].
  unfold layout. simpl. by rewrite Hmq, Hprev.
Qed.

(** X11: in a world and heap that promote, when a track [c] is current and
    [get_next_audio] does not raise [IndexError], [get_next_audio] followed
    at once by [get_previous_audio] returns [c] and puts the forward queue
    and the current slot back; the history is as before too, except that it
    has lost its oldest entry if it was longer than its bound. *)
Theorem next_then_previous_history (st : State) (c : ref) :
  promotes env (heap st) →
  _current_audio st = Some c →
  0 ≤ max_previous_queue_size st ∨ previous_queue st ≠ [] →
  ∃ st',
    (get_next_audio env;; get_previous_audio env) st = (Ok (Some c), st')
    ∧ queue st' = queue st
    ∧ _current_audio st' = Some c
    ∧ previous_queue st'
      = if max_previous_queue_size st <? hist_len st
        then tail (previous_queue st) else previous_queue st.
Proof.
  intros Hp Hc Hok.
  destruct (get_next_audio_step st Hp)
    as (s1 & Hnext & Hc1 & Hq1 & Hp1 & _ & Hprom1); [tauto|].
  rewrite Hc in Hp1. erewrite bind_ok; [|exact Hnext].
  destruct (get_previous_audio_step s1 _ c Hprom1 Hp1)
    as (st' & Hprev & Hc' & Hp' & Hq' & _).
  exists st'. split; [done|]. split_and!; [|done..].
  by rewrite Hq', Hc1, Hq1, slot_head_tail.
Qed.

(** ** Admission, in order *)

(** X12: while a track is current and there is room for all of them,
    [append] of the instances [l] one after the other leaves them at the
    tail of the forward queue in the order given, and [append_left] leaves
    them at its head in reverse order; the current slot, the history and
    the heap stay as they are, and each call publishes one [queue_update]. *)
Theorem appends_keep_order (l : list ref) (b : bool) : ∀ (st : State) (c : ref),
  _current_audio st = Some c →
  queue_len st + Z.of_nat (length l) ≤ max_queue_size st →
  ∃ st',
    run_appends env (map (λ a, (PyAudio a, b)) l) st = (Ok tt, st')
    ∧ queue st' = (if b then rev l ++ queue st else queue st ++ l)
    ∧ _current_audio st' = Some c
    ∧ previous_queue st' = previous_queue st
    ∧ heap st' = heap st
    ∧ posted (trace st')
      = posted (trace st) ++ replicate (length l) (PostEvent queue_update).
Proof.
  induction l as [|a l IH]; intros st c Hc Hroom.
  - exists st. simpl. rewrite !app_nil_r. by destruct b.
  - pose proof (_add_to_queue_run (PyAudio a) b st) as Hstep.
    unfold queue_len in Hroom. simpl length in Hroom.
    destruct (Z.ltb_spec (Z.of_nat (length (queue st))) (max_queue_size st));
      [|lia].
    cbv beta iota zeta in Hstep. rewrite Hc in Hstep.
    edestruct (IH (set_trace (trace st ++ [Log INFO "Audio added to queue: %s";
                                            PostEvent queue_update])
                     (set_queue (if b then a :: queue st else queue st ++ [a]) st))
                  c) as (st' & Hrun & Hq & Hc' & Hp & Hh & Hpost).
    + done.
    + unfold queue_len. simpl.
      destruct b; simpl; rewrite ?length_app; simpl; lia.
    + exists st'. cbn [map run_appends]. erewrite bind_ok; [|exact Hstep].
      split; [exact Hrun|]. simpl in *. split_and!; try done.
      * rewrite Hq. destruct b; simpl; by rewrite <- app_assoc.
      * rewrite Hpost, posted_app. simpl. by rewrite <- app_assoc.
Qed.

(** X13: in a world and heap that promote, on an idle queue with nothing
    waiting and room for one track, [append] or [append_left] of an
    instance makes it current at once: the forward queue stays empty, the
    history is untouched, and the one event published is [new_audio] with
    that instance, not [queue_update]. *)
Theorem append_on_idle_promotes (a : ref) (b : bool) (st : State) :
  promotes env (heap st) →
  _current_audio st = None →
  queue st = [] →
  0 < max_queue_size st →
  ∃ st',
    _add_to_queue env (PyAudio a) b st = (Ok tt, st')
    ∧ _current_audio st' = Some a
    ∧ queue st' = []
    ∧ previous_queue st' = previous_queue st
    ∧ posted (trace st') = posted (trace st) ++ [PostEvent (new_audio a)].
Proof.
  intros Hp Hc Hq Hroom.
  pose proof (_add_to_queue_returns (PyAudio a) b st Hp) as Hrun.
  cbv beta iota zeta in Hrun. rewrite Hq, Hc in Hrun.
  change (Z.of_nat (length (@nil ref))) with 0 in Hrun.
  destruct (Z.ltb_spec 0 (max_queue_size st)); [|lia].
  assert (Hq' : (if b then [a] else [] ++ [a]) = [a]) by (by destruct b).
  rewrite Hq' in Hrun. cbn [head tail event_of_slot] in Hrun.
  destruct Hrun as (h & tr & -> & Hpost & _). eexists. split; [done|]. simpl.
  change (Log INFO "Audio added to queue: %s" :: tr)
    with ([Log INFO "Audio added to queue: %s"] ++ tr).
  by rewrite !posted_app, Hpost.
Qed.

(** ** The objects *)

(** X14: [is_stale] makes one call, the HEAD request on the stream URL.
    When that is answered, or fails with a connection error, [is_stale]
    returns, and it answers [False] exactly when the answer has status 200;
    any other exception of the request leaves [is_stale] as it is.  Either
    way [is_stale] changes no [Audio] object and no field of the queue, and
    publishes nothing. *)
Theorem is_stale_only_probes (a : ref) (st : State) :
  ∃ r st',
    is_stale env a st = (r, st')
    ∧ match requests_head env (length (trace st))
              (Audio.audio_url (heap st !!! a)) with
      | Uncaught e => r = Raise e
      | _ =>
          ∃ stale,
            r = Ok stale
            ∧ (stale = false
               ↔ requests_head env (length (trace st))
                   (Audio.audio_url (heap st !!! a))
                 = Response 200)
      end
    ∧ heap st' = heap st
    ∧ layout st' = layout st
    ∧ posted (trace st') = posted (trace st)
    ∧ calls (trace st')
      = calls (trace st) ++ [Head (Audio.audio_url (heap st !!! a))].
Proof.
  eexists _, _. split; [apply is_stale_run|]. simpl.
  unfold stale_in, is_stale_answer.
  destruct (requests_head env _ _) as [code| |e]; simpl;
    rewrite posted_app, calls_app; simpl; rewrite ?app_nil_r;
    split_and!; try done.
  - exists (negb (code =? 200)). split; [done|].
    destruct (Z.eqb_spec code 200) as [->|Hne]; simpl; [done|].
    split; [done|]. by intros [= ?].
  - by exists true.
Qed.

Lemma refreshed_heap_keeps (a : ref) (h0 h : gmap ref Audio.t) :
  refreshed_heap env a h0 h →
  (∀ b, a ≠ b → h !! b = h0 !! b)
  ∧ Audio.author (h !!! a) = Audio.author (h0 !!! a)
  ∧ Audio.voice_channel (h !!! a) = Audio.voice_channel (h0 !!! a)
  ∧ Audio.text_channel (h !!! a) = Audio.text_channel (h0 !!! a).
Proof.
  intros [->|(e & k & q & _ & ->)]; [done|].
  rewrite lookup_total_insert_eq. split_and!; [|done..].
  intros b Hne. by rewrite lookup_insert_ne.
Qed.

(** X15: assigning the object [a] to the current slot changes no other
    [Audio] object, and of [a] itself it keeps the requester and the two
    channels, whether or not the track was refreshed, and whether the
    setter returns or raises. *)
Theorem promotion_touches_one_object (a : ref) (st : State) :
  (∀ b, a ≠ b →
     heap (snd (set_current_audio env (Some a) st)) !! b = heap st !! b)
  ∧ Audio.author (heap (snd (set_current_audio env (Some a) st)) !!! a)
    = Audio.author (heap st !!! a)
  ∧ Audio.voice_channel (heap (snd (set_current_audio env (Some a) st)) !!! a)
    = Audio.voice_channel (heap st !!! a)
  ∧ Audio.text_channel (heap (snd (set_current_audio env (Some a) st)) !!! a)
    = Audio.text_channel (heap st !!! a).
Proof.
  pose proof (set_current_audio_some a st) as Hrun.
  destruct (stale_in env st a) as [stale|e]; [|by rewrite Hrun].
  destruct Hrun as (h1 & tr1 & _ & Hh & ->).
  destruct (refreshed_heap_keeps _ _ _ Hh) as (Hframe & Ha & Hv & Ht).
  destruct (end_time_of _ _ 0); simpl; [|done].
  rewrite lookup_total_insert_eq. simpl. split_and!; [|done..].
  intros b Hne. rewrite lookup_insert_ne by done. by apply Hframe.
Qed.

(** ** Rendering *)

Lemma string_app_cons (c : Ascii.ascii) (s t : string) :
  String c s +:+ t = String c (s +:+ t).
Proof. reflexivity. Qed.

Lemma string_app_assoc (a b c : string) : (a +:+ b) +:+ c = a +:+ b +:+ c.
Proof.
  induction a as [|x a IH]; [done|]. by rewrite !string_app_cons, IH.
Qed.

Lemma string_app_nil_r (s : string) : s +:+ "" = s.
Proof. induction s as [|x s IH]; [done|]. by rewrite string_app_cons, IH. Qed.

Lemma string_app_nonempty_r (s t : string) : t ≠ "" → s +:+ t ≠ "".
Proof. intros Ht. destruct s; [done|]. by rewrite string_app_cons. Qed.

Lemma numbered_empty (i : Z) (ts : list string) : numbered i ts = "" ↔ ts = [].
Proof.
  split; [|by intros ->]. destruct ts as [|t ts]; [done|]. simpl. intros Habs.
  by apply string_app_nonempty_r in Habs.
Qed.

Lemma deque_getitem_from_left (l : list ref) (k : nat) (a : ref) (st : State) :
  l !! k = Some a → deque_getitem l (Z.of_nat k) st = (Ok a, st).
Proof.
  intros Hk. pose proof (lookup_lt_Some _ _ _ Hk) as Hlt.
  unfold deque_getitem. cbv zeta.
  destruct (Z.ltb_spec (Z.of_nat k) 0); [lia|].
  destruct (Z.leb_spec 0 (Z.of_nat k)); [|lia].
  destruct (Z.ltb_spec (Z.of_nat k) (Z.of_nat (length l))); [|lia].
  simpl. by rewrite Nat2Z.id, Hk.
Qed.

Lemma rev_lookup (l : list ref) (k : nat) :
  (k < length l)%nat → rev l !! k = l !! (length l - S k)%nat.
Proof. intros Hk. rewrite rev_alt. by apply reverse_lookup. Qed.

Lemma deque_getitem_from_right (l : list ref) (k : nat) (a : ref) (st : State) :
  rev l !! k = Some a → deque_getitem l (- Z.of_nat k - 1) st = (Ok a, st).
Proof.
  intros Hk. pose proof (lookup_lt_Some _ _ _ Hk) as Hlt.
  rewrite length_rev in Hlt. rewrite rev_lookup in Hk by done.
  unfold deque_getitem. cbv zeta.
  destruct (Z.ltb_spec (- Z.of_nat k - 1) 0); [|lia].
  destruct (Z.leb_spec 0 (- Z.of_nat k - 1 + Z.of_nat (length l))); [|lia].
  destruct (Z.ltb_spec (- Z.of_nat k - 1 + Z.of_nat (length l))
              (Z.of_nat (length l))); [|lia].
  simpl.
  replace (Z.to_nat (- Z.of_nat k - 1 + Z.of_nat (length l)))
    with (length l - S k)%nat by lia.
  by rewrite Hk.
Qed.

(** The loop of both renderers, over the list [L] its body reads from left
    to right. *)
Lemma for_range_numbered (L : list ref) (body : Z → string → M string)
    (st : State) :
  (∀ (k : nat) (a : ref) (acc : string),
      L !! k = Some a →
      body (Z.of_nat k) acc st
      = (Ok (acc +:+ pretty (Z.of_nat k + 1) +:+ ". "
             +:+ Audio.title (heap st !!! a) +:+ newline), st)) →
  ∀ (n k : nat) (acc : string),
    (k + n ≤ length L)%nat →
    for_range n (Z.of_nat k) body acc st
    = (Ok (acc +:+ numbered (Z.of_nat k + 1)
                     (titles_of (heap st) (take n (drop k L)))), st).
Proof.
  intros Hbody n. induction n as [|n IH]; intros k acc Hlen.
  - simpl. by rewrite string_app_nil_r.
  - destruct (lookup_lt_is_Some_2 L k) as [a Ha]; [lia|].
    cbn [for_range]. erewrite bind_ok; [|by apply Hbody].
    replace (Z.of_nat k + 1) with (Z.of_nat (S k)) by lia.
    rewrite IH by lia. rewrite (drop_S _ _ _ Ha). simpl.
    replace (Z.of_nat (S k) + 1) with (Z.pos (Pos.of_succ_nat k) + 1) by lia.
    by rewrite !string_app_assoc.
Qed.

Lemma take_min_length (l : list ref) (amount : Z) :
  take (Z.to_nat (Z.min amount (Z.of_nat (length l)))) l
  = take (Z.to_nat amount) l.
Proof.
  destruct (Z.le_gt_cases amount (Z.of_nat (length l))).
  - by rewrite Z.min_l.
  - rewrite Z.min_r, Nat2Z.id by lia. by rewrite !take_ge by lia.
Qed.

Lemma get_queue_as_str_run (amount : Z) (st : State) :
  get_queue_as_str amount st
  = (Ok (nonempty_string
           (numbered 1 (titles_of (heap st)
                                  (take (Z.to_nat amount) (queue st))))), st).
Proof.
  unfold get_queue_as_str, get. erewrite bind_ok; [|reflexivity].
  erewrite bind_ok.
  2:{ apply (for_range_numbered (queue st) _ st) with (k := 0%nat).
      - intros k a acc Hk. unfold get. erewrite bind_ok; [|reflexivity].
        erewrite bind_ok; [|by apply deque_getitem_from_left].
        reflexivity.
      - simpl. lia. }
  by rewrite take_min_length.
Qed.

(** X16: [get_queue_as_str] never raises and changes nothing, whatever
    [amount] is (negative, zero, or more than there are tracks): it returns
    the titles of the first [amount] tracks of the forward queue, in queue
    order, one per line, numbered from 1, or [None] when that text is
    empty. *)
Theorem get_queue_as_str_lists_the_head (amount : Z) (st : State) :
  get_queue_as_str amount st
  = (Ok (nonempty_string
           (numbered 1 (titles_of (heap st)
                                  (take (Z.to_nat amount) (queue st))))), st).
Proof. apply get_queue_as_str_run. Qed.

Lemma get_previous_queue_as_str_run (amount : Z) (st : State) :
  get_previous_queue_as_str amount st
  = (Ok (nonempty_string
           (numbered 1 (titles_of (heap st)
              (take (Z.to_nat amount) (rev (previous_queue st)))))), st).
Proof.
  unfold get_previous_queue_as_str, get. erewrite bind_ok; [|reflexivity].
  erewrite bind_ok.
  2:{ apply (for_range_numbered (rev (previous_queue st)) _ st) with (k := 0%nat).
      - intros k a acc Hk. unfold get. erewrite bind_ok; [|reflexivity].
        erewrite bind_ok; [|by apply deque_getitem_from_right].
        reflexivity.
      - rewrite length_rev. simpl. lia. }
  rewrite <- (length_rev (previous_queue st)). by rewrite take_min_length.
Qed.

(** X17: [get_previous_queue_as_str] never raises and changes nothing,
    whatever [amount] is: it returns the titles of the last [amount] tracks
    of the history, the most recent first, one per line, numbered from 1,
    or [None] when that text is empty. *)
Theorem get_previous_queue_as_str_lists_the_latest (amount : Z) (st : State) :
  get_previous_queue_as_str amount st
  = (Ok (nonempty_string
           (numbered 1 (titles_of (heap st)
              (take (Z.to_nat amount) (rev (previous_queue st)))))), st).
Proof. apply get_previous_queue_as_str_run. Qed.

(** X18: both renderers return [None] exactly when [amount] is not positive
    or the deque they read is empty. *)
Theorem renderers_return_none_iff (amount : Z) (st : State) :
  (fst (get_queue_as_str amount st) = Ok None ↔ amount ≤ 0 ∨ queue st = [])
  ∧ (fst (get_previous_queue_as_str amount st) = Ok None
     ↔ amount ≤ 0 ∨ previous_queue st = []).
Proof.
  assert (Hnone : ∀ l : list ref,
    nonempty_string (numbered 1 (titles_of (heap st) (take (Z.to_nat amount) l)))
    = None ↔ amount ≤ 0 ∨ l = []).
  { intros l. unfold nonempty_string. case_decide as Hs.
    - split; [intros _|done]. apply numbered_empty in Hs.
      unfold titles_of in Hs. apply map_eq_nil in Hs.
      destruct l as [|a l]; [by right|]. left.
      destruct (Z.to_nat amount) eqn:Hn; [lia|done].
    - split; [done|]. intros Hor. exfalso. apply Hs, numbered_empty.
      destruct Hor as [Hle| ->].
      + by replace (Z.to_nat amount) with 0%nat by lia.
      + by rewrite take_nil. }
  assert (Hrev : rev (previous_queue st) = [] ↔ previous_queue st = []).
  { split; [|by intros ->]. intros Hnil.
    by rewrite <- (rev_involutive (previous_queue st)), Hnil. }
  rewrite get_queue_as_str_run, get_previous_queue_as_str_run. simpl. split.
  - split.
    + intros [= Heq]. by apply Hnone.
    + intros Hor. f_equal. by apply Hnone.
  - split.
    + intros [= Heq]. apply Hnone in Heq. by rewrite Hrev in Heq.
    + intros Hor. f_equal. apply Hnone. by rewrite Hrev.
Qed.


End Properties.

(** * The queue and the world *)

Section TwoWorlds.
Context (env env' : Env).

Ltac same_layout H :=
  unfold layout in H; injection H as Hmq Hmp Hq Hp Hc.

Lemma get_next_audio_layout (st1 st2 : State) :
  layout st1 = layout st2 →
  promotes env (heap st1) → promotes env' (heap st2) →
  layout (snd (get_next_audio env st1)) = layout (snd (get_next_audio env' st2))
  ∧ fst (get_next_audio env st1) = fst (get_next_audio env' st2).
Proof.
  intros Hl Hprom1 Hprom2. pose proof Hl as Hl'. same_layout Hl.
  pose proof (get_next_audio_returns env st1 Hprom1) as H1.
  pose proof (get_next_audio_returns env' st2 Hprom2) as H2.
  rewrite <- Hmq, <- Hmp, <- Hq, <- Hp, <- Hc in H2.
  destruct (retired _ _ _).
  - destruct H1 as (h1 & tr1 & -> & _). destruct H2 as (h2 & tr2 & -> & _).
    simpl. split; [|congruence]. unfold layout. simpl. congruence.
  - rewrite H1, H2. done.
Qed.

Lemma get_previous_audio_layout (st1 st2 : State) :
  layout st1 = layout st2 →
  promotes env (heap st1) → promotes env' (heap st2) →
  layout (snd (get_previous_audio env st1))
  = layout (snd (get_previous_audio env' st2))
  ∧ fst (get_previous_audio env st1) = fst (get_previous_audio env' st2).
Proof.
  intros Hl Hprom1 Hprom2. pose proof Hl as Hl'. same_layout Hl.
  pose proof (get_previous_audio_returns env st1 Hprom1) as H1.
  pose proof (get_previous_audio_returns env' st2 Hprom2) as H2.
  rewrite <- Hmq, <- Hmp, <- Hq, <- Hp, <- Hc in H2.
  destruct (rev (previous_queue st1)) as [|x rp].
  - rewrite H1, H2. done.
  - destruct H1 as (h1 & tr1 & -> & _). destruct H2 as (h2 & tr2 & -> & _).
    simpl. split; [|done]. unfold layout. simpl. congruence.
Qed.

Lemma _add_to_queue_layout (v : pyval) (b : bool) (st1 st2 : State) :
  layout st1 = layout st2 →
  promotes env (heap st1) → promotes env' (heap st2) →
  layout (snd (_add_to_queue env v b st1))
  = layout (snd (_add_to_queue env' v b st2))
  ∧ fst (_add_to_queue env v b st1) = fst (_add_to_queue env' v b st2).
Proof.
  intros Hl Hprom1 Hprom2. pose proof Hl as Hl'. same_layout Hl.
  pose proof (_add_to_queue_returns env v b st1 Hprom1) as H1.
  pose proof (_add_to_queue_returns env' v b st2 Hprom2) as H2.
  rewrite <- Hmq, <- Hq, <- Hc in H2.
  destruct v as [|a|tag]; try (by rewrite H1, H2).
  destruct (_ <? _); [|by rewrite H1, H2].
  cbv beta iota zeta in H1, H2. destruct (_current_audio st1) eqn:Hc1.
  - rewrite H1, H2. simpl. split; [|done]. unfold layout. simpl. congruence.
  - destruct H1 as (h1 & tr1 & -> & _). destruct H2 as (h2 & tr2 & -> & _).
    simpl. split; [|done]. unfold layout. simpl. congruence.
Qed.

Lemma restart_queue_layout (st1 st2 : State) :
  layout st1 = layout st2 →
  promotes env (heap st1) → promotes env' (heap st2) →
  layout (snd (restart_queue env st1)) = layout (snd (restart_queue env' st2))
  ∧ fst (restart_queue env st1) = fst (restart_queue env' st2).
Proof.
  intros Hl Hprom1 Hprom2. pose proof Hl as Hl'. same_layout Hl.
  pose proof (restart_queue_returns env st1 Hprom1) as H1.
  pose proof (restart_queue_returns env' st2 Hprom2) as H2.
  assert (Hre : requeued st2 = requeued st1).
  { unfold requeued. by rewrite Hmq, Hq, Hc. }
  rewrite Hre, <- Hmq, <- Hmp, <- Hp, <- Hc in H2.
  destruct (retired _ _ _).
  - destruct H1 as (h1 & tr1 & -> & _). destruct H2 as (h2 & tr2 & -> & _).
    simpl. split; [|done]. unfold layout. simpl. congruence.
  - destruct H1 as (tr1 & ->). destruct H2 as (tr2 & ->).
    simpl. split; [|done]. unfold layout. simpl. congruence.
Qed.

Lemma remove_current_audio_layout (st1 st2 : State) :
  layout st1 = layout st2 →
  promotes env (heap st1) → promotes env' (heap st2) →
  layout (snd (remove_current_audio env st1))
  = layout (snd (remove_current_audio env' st2))
  ∧ (∃ r1 r2, fst (remove_current_audio env st1) = Ok r1
              ∧ fst (remove_current_audio env' st2) = Ok r2).
Proof.
  intros Hl Hprom1 Hprom2. pose proof Hl as Hl'. same_layout Hl.
  pose proof (remove_current_audio_returns env st1 Hprom1) as H1.
  pose proof (remove_current_audio_returns env' st2 Hprom2) as H2.
  rewrite <- Hmq, <- Hmp, <- Hq, <- Hp, <- Hc in H2.
  destruct (_current_audio st1) eqn:Hc1.
  - destruct H1 as (h1 & tr1 & -> & _). destruct H2 as (h2 & tr2 & -> & _).
    simpl. split; [|by eexists _, _]. unfold layout. simpl. congruence.
  - rewrite H1, H2. simpl. split; [done|by eexists _, _].
Qed.

Lemma exec_op_layout (o : op) (st1 st2 : State) :
  layout st1 = layout st2 →
  promotes env (heap st1) → promotes env' (heap st2) →
  layout (snd (exec_op env o st1)) = layout (snd (exec_op env' o st2))
  ∧ fst (exec_op env o st1) = fst (exec_op env' o st2).
Proof.
  intros Hl Hprom1 Hprom2. destruct o; cbn [exec_op];
    rewrite ?snd_bind_unit, ?fst_bind_unit.
  - by apply _add_to_queue_layout.
  - by apply _add_to_queue_layout.
  - destruct (get_next_audio_layout st1 st2 Hl Hprom1 Hprom2) as [H1 H2].
    by rewrite H1, H2.
  - destruct (get_previous_audio_layout st1 st2 Hl Hprom1 Hprom2) as [H1 H2].
    by rewrite H1, H2.
  - by apply restart_queue_layout.
  - destruct (remove_current_audio_layout st1 st2 Hl Hprom1 Hprom2)
      as (H1 & r1 & r2 & Hr1 & Hr2).
    by rewrite H1, Hr1, Hr2.
  - rewrite !reset_queue_run. simpl. split; [|done].
    pose proof Hl as Hl'. same_layout Hl. unfold layout. simpl. congruence.
Qed.

(** X19: where every assignment to the current slot runs to its end, what
    waits, what plays and what is remembered depend on nothing else of the
    network, the resolver, the clock or the contents of the [Audio]
    objects: two queue objects with the same fields, in any two worlds that
    promote over their heaps, are taken by the same calls to the same
    fields, and every call returns or raises alike in both. *)
Theorem promoting_worlds_agree_on_layout (os : list op) : ∀ st1 st2 : State,
  layout st1 = layout st2 →
  promotes env (heap st1) → promotes env' (heap st2) →
  layout (run_ops env os st1) = layout (run_ops env' os st2)
  ∧ ∀ o, fst (exec_op env o (run_ops env os st1))
         = fst (exec_op env' o (run_ops env' os st2)).
Proof.
  induction os as [|o os IH]; intros st1 st2 Hl Hprom1 Hprom2; cbn [run_ops].
  - split; [done|]. intros o. by apply exec_op_layout.
  - apply IH; [by apply exec_op_layout|by apply exec_op_promotes..].
Qed.

End TwoWorlds.

(** * The playback driver *)

Section VoiceProperties.
Context (w : Voice.World).

Ltac vunfold :=
  unfold Voice.disconnect_voice, Voice.stop_voice, Voice.go_to,
    Voice._get_audio_source, Voice.is_playing, Voice.on_client, Voice.attempt,
    Voice.logging, Voice.call, Voice.set_client, Voice.set_cur_audio,
    Voice.get, Voice.raise, mbind, Voice.V_bind, mret, Voice.V_ret in *.

(** X20: [disconnect_voice] without a client returns normally, makes no
    call on a client and logs one warning.  Whenever it returns, the driver
    holds no client afterwards and the track it tracks is unchanged.  It
    raises only what the client's own [disconnect] raised, and only if that
    is neither an [AttributeError] nor a [TypeError]; the client handle is
    then kept. *)
Theorem disconnect_voice_drops_the_client (st : Voice.State) :
  (Voice.client st = None →
   ∃ st',
     Voice.disconnect_voice w st = (Voice.Ok tt, st')
     ∧ Voice.trace st'
       = Voice.trace st
         ++ [Voice.Log WARNING "No voice client connected to stop: %s"])
  ∧ (∀ st',
       Voice.disconnect_voice w st = (Voice.Ok tt, st') →
       Voice.client st' = None ∧ Voice.cur_audio st' = Voice.cur_audio st)
  ∧ (∀ e st',
       Voice.disconnect_voice w st = (Voice.Raise e, st') →
       e ≠ Voice.AttributeError ∧ e ≠ Voice.TypeError
       ∧ Voice.disconnect_answer w (length (Voice.trace st)) = Voice.Raise e
       ∧ Voice.client st' = Voice.client st).
Proof.
  split_and!.
  - intros Hc. vunfold. rewrite Hc. simpl. by eexists.
  - intros st'. vunfold. destruct (Voice.client st); simpl;
      [destruct (Voice.disconnect_answer w _) as [[]|[]]; simpl|];
      intros [= <-]; done.
  - intros e st'. vunfold. destruct (Voice.client st) eqn:Hc; simpl;
      [destruct (Voice.disconnect_answer w _) as [[]|[]] eqn:Hans; simpl|];
      intros [= <- <-]; done.
Qed.

(** X21: [stop_voice] never changes which client the driver holds nor the
    track it tracks, whatever the client answers; without a client it
    returns normally, makes no call on a client and logs one warning; it
    raises only what the client's own [stop] raised, and only if that is
    neither an [AttributeError] nor a [TypeError]. *)
Theorem stop_voice_keeps_the_client (st : Voice.State) :
  (∀ r st',
     Voice.stop_voice w st = (r, st') →
     Voice.client st' = Voice.client st
     ∧ Voice.cur_audio st' = Voice.cur_audio st)
  ∧ (Voice.client st = None →
     Voice.stop_voice w st
     = (Voice.Ok tt,
        Voice.mkState None (Voice.cur_audio st) (Voice.after_function st)
          (Voice.heap st)
          (Voice.trace st
           ++ [Voice.Log WARNING "No voice client connected to stop: %s"])))
  ∧ (∀ e st',
       Voice.stop_voice w st = (Voice.Raise e, st') →
       e ≠ Voice.AttributeError ∧ e ≠ Voice.TypeError
       ∧ Voice.stop_answer w (length (Voice.trace st)) = Voice.Raise e).
Proof.
  split_and!.
  - intros r st'. vunfold. destruct (Voice.client st) eqn:Hc; simpl;
      [destruct (Voice.stop_answer w _) as [[]|[]]; simpl|];
      intros [= <- <-]; done.
  - intros Hc. vunfold. rewrite Hc. simpl. by rewrite Hc.
  - intros e st'. vunfold. destruct (Voice.client st) eqn:Hc; simpl;
      [destruct (Voice.stop_answer w _) as [[]|[]] eqn:Hans; simpl|];
      intros [= <- <-]; done.
Qed.

(** X22: [go_to] does nothing at all when the driver holds no client; when
    the client says that nothing is playing, or when the driver tracks no
    track, it has asked the client whether it plays and done nothing else:
    no source is built and none is set. *)
Theorem go_to_needs_a_playing_track (time : Z) (st : Voice.State) :
  (Voice.client st = None → Voice.go_to w time st = (Voice.Ok tt, st))
  ∧ (is_Some (Voice.client st) →
     Voice.is_playing_answer w (length (Voice.trace st)) = Voice.Ok false
     ∨ (Voice.is_playing_answer w (length (Voice.trace st)) = Voice.Ok true
        ∧ Voice.cur_audio st = None) →
     Voice.go_to w time st
     = (Voice.Ok tt,
        Voice.mkState (Voice.client st) (Voice.cur_audio st)
          (Voice.after_function st) (Voice.heap st)
          (Voice.trace st ++ [Voice.IsPlaying]))).
Proof.
  split.
  - intros Hc. vunfold. rewrite Hc. simpl. by destruct (Voice.cur_audio st), st.
  - intros [c Hc] Hor. vunfold. rewrite Hc. simpl.
    destruct Hor as [-> | [-> ->]]; simpl; rewrite ?Hc; [|done].
    by destruct (Voice.cur_audio st).
Qed.

Lemma concat_snoc (sep x : string) (l : list string) :
  l ≠ [] → String.concat sep (l ++ [x]) = String.concat sep l +:+ sep +:+ x.
Proof.
  induction l as [|y l IH]; [done|]. intros _. destruct l as [|z l].
  - reflexivity.
  - change (String.concat sep ((y :: z :: l) ++ [x]))
      with (y +:+ sep +:+ String.concat sep ((z :: l) ++ [x])).
    rewrite IH by done.
    change (String.concat sep (y :: z :: l))
      with (y +:+ sep +:+ String.concat sep (z :: l)).
    by rewrite !string_app_assoc.
Qed.

(** X23: when the client plays and the driver tracks the track [a], [go_to]
    asks the client whether it plays, builds one source and sets it on the
    client, with no stop, no disconnect and no other call: the source reads
    from the track's stream URL, with the options of [FFMPEG_OPTS] and, as
    the last of the before-options, the seek flag [-ss time]; the driver
    keeps its client and its track, and returns what setting the source
    returned. *)
Theorem go_to_swaps_the_source (time : Z) (st : Voice.State) (c : nat) (a : ref) :
  Voice.client st = Some c →
  Voice.cur_audio st = Some a →
  Voice.is_playing_answer w (length (Voice.trace st)) = Voice.Ok true →
  Voice.new_source_answer w (length (Voice.trace st) + 1) = Voice.Ok tt →
  let src :=
    Voice.mkSource (Audio.audio_url (Voice.heap st !!! a))
      (String.concat " " (Voice.opt_before_options (Voice.FFMPEG_OPTS w)
                          ++ ["-ss " +:+ pretty time]))
      (String.concat " " (Voice.opt_options (Voice.FFMPEG_OPTS w))) 10 in
  Voice.go_to w time st
  = (Voice.set_source_answer w (length (Voice.trace st) + 2),
     Voice.mkState (Some c) (Some a) (Voice.after_function st) (Voice.heap st)
       (Voice.trace st
        ++ [Voice.IsPlaying; Voice.NewSource src; Voice.SetSource src]))
  ∧ (Voice.opt_before_options (Voice.FFMPEG_OPTS w) ≠ [] →
     Voice.before_options src
     = String.concat " " (Voice.opt_before_options (Voice.FFMPEG_OPTS w))
       +:+ " -ss " +:+ pretty time).
Proof.
  intros Hc Ha Hplay Hnew src. split.
  - vunfold. rewrite Hc. simpl. rewrite Hplay, Ha. simpl.
    rewrite length_app. simpl. rewrite Hnew. simpl.
    rewrite ?app_nil_r, ?Hc. simpl. unfold src. f_equal.
    + f_equal. rewrite !length_app. simpl. lia.
    + f_equal. by rewrite <- !app_assoc.
  - intros Hne. unfold src. simpl. by rewrite (concat_snoc _ _ _ Hne).
Qed.

End VoiceProperties.

(** * The theorems at work on concrete queues *)

(** ** Worlds and heaps that promote *)

(** With the clock of the examples, a probe that answers and lengths of at
    most a day, every assignment to the current slot runs to its end. *)
Lemma promotes_by_clock (env : Env) (h : gmap ref Audio.t) :
  probes_answer env →
  datetime_now env = clock →
  (∀ k q e, get_audio env k q = Some e →
            ∃ s, entry_length e = Seconds s ∧ 0 ≤ s ≤ 86400) →
  (∀ a : ref, ∃ s, Audio.length (h !!! a) = Seconds s ∧ 0 ≤ s ≤ 86400) →
  promotes env h.
Proof.
  intros Hprobe Hclock Hworld Hheap.
  assert (Hfit : ∀ s, 0 ≤ s ≤ 86400 → end_time_fits env (Seconds s)).
  { intros s Hs. apply end_time_fits_seconds.
    - unfold timedelta_min, timedelta_max. lia.
    - intros k. rewrite Hclock. pose proof (clock_today k).
      unfold a_day_in_2025, datetime_max in *. lia. }
  split_and!; [done| |].
  - intros k q e Hget. destruct (Hworld k q e Hget) as (s & -> & Hs).
    by apply Hfit.
  - intros a. destruct (Hheap a) as (s & -> & Hs). by apply Hfit.
Qed.

Lemma three_tracks_are_short (a : ref) :
  ∃ s, Audio.length (three_tracks !!! a) = Seconds s ∧ 0 ≤ s ≤ 86400.
Proof.
  unfold three_tracks.
  destruct (decide (a = 1%nat)) as [->|?];
    [rewrite lookup_total_insert_eq; eexists; split; [reflexivity|lia]|].
  rewrite lookup_total_insert_ne by done.
  destruct (decide (a = 2%nat)) as [->|?];
    [rewrite lookup_total_insert_eq; eexists; split; [reflexivity|lia]|].
  rewrite lookup_total_insert_ne by done.
  destruct (decide (a = 3%nat)) as [->|?];
    [rewrite lookup_total_insert_eq; eexists; split; [reflexivity|lia]|].
  rewrite lookup_total_insert_ne by done.
  rewrite lookup_total_empty. eexists. split; [reflexivity|lia].
Qed.

Lemma quiet_env_promotes : promotes quiet_env three_tracks.
Proof.
  apply promotes_by_clock; [by intros k url e|done|by intros k q e|].
  apply three_tracks_are_short.
Qed.

Lemma stale_env_promotes : promotes stale_env ∅.
Proof.
  apply promotes_by_clock; [by intros k url e|done| |].
  - intros k q e [= <-]. eexists. split; [reflexivity|lia].
  - intros a. rewrite lookup_total_empty. eexists. split; [reflexivity|lia].
Qed.

(** Every state reached from a fresh queue over the three tracks in the
    quiet world. *)
Lemma quiet_env_promotes_after (os : list op) (mq mp : Z) :
  promotes quiet_env (heap (run_ops quiet_env os (init mq mp three_tracks))).
Proof. apply run_ops_promotes. apply quiet_env_promotes. Qed.

(** ** The claims *)

Lemma current_track_restored_example :
  _current_audio playing_second = Some 2%nat
  ∧ ∃ st',
      (get_next_audio quiet_env;; get_previous_audio quiet_env) playing_second
      = (Ok (Some 2%nat), st')
      ∧ _current_audio st' = Some 2%nat
      ∧ queue st' = queue playing_second.
Proof.
  assert (H : _current_audio playing_second = Some 2%nat)
    by (vm_compute; reflexivity).
  split; [exact H|].
  destruct (next_then_previous_restores quiet_env playing_second 2%nat H)
    as [Hrestores Hreturns].
  destruct Hreturns as [st' Hrun].
  - apply quiet_env_promotes_after.
  - left. vm_compute. discriminate.
  - destruct (Hrestores _ _ Hrun) as (_ & Hslot & Hqueue).
    exists st'. split; [exact Hrun|]. split; [exact Hslot|exact Hqueue].
Defined.

Lemma previous_on_fresh_queue_example :
  previous_queue fresh = []
  ∧ ∃ st',
      get_previous_audio quiet_env fresh = (Ok None, st')
      ∧ st' = set_trace (trace fresh ++
                [Log ERROR "Unable to get previous audio, previous queue is empty"])
                fresh
      ∧ queue st' = queue fresh
      ∧ previous_queue st' = previous_queue fresh
      ∧ _current_audio st' = _current_audio fresh
      ∧ heap st' = heap fresh
      ∧ posted (trace st') = posted (trace fresh).
Proof.
  split; [reflexivity|].
  apply (get_previous_audio_empty_history quiet_env fresh). reflexivity.
Defined.

Lemma none_is_rejected_example :
  (∀ a, PyNone ≠ PyAudio a)
  ∧ _current_audio idle_after_one = None
  ∧ append_left quiet_env PyNone idle_after_one
    = (Ok tt, set_trace (trace idle_after_one ++
                [Log ERROR "Unable to add audio: Not an Audio object"])
                idle_after_one)
  ∧ ∃ st'',
      restart_queue quiet_env idle_after_one = (Ok tt, st'')
      ∧ slot_list (_current_audio st'') ++ queue st''
        = previous_queue idle_after_one ++ queue idle_after_one
      ∧ previous_queue st'' = [].
Proof.
  assert (Hv : ∀ a, PyNone ≠ PyAudio a) by discriminate.
  assert (Hc : _current_audio idle_after_one = None) by (vm_compute; reflexivity).
  destruct (non_audio_is_rejected quiet_env PyNone idle_after_one Hv)
    as (_ & Hleft & _ & Hrestart).
  split_and!; [exact Hv|exact Hc|exact Hleft|].
  destruct (Hrestart Hc) as (r & st'' & Hrun & _ & Hprev & _ & Hall & Hret).
  assert (Hr : r = Ok tt) by (apply Hret, quiet_env_promotes_after).
  exists st''. rewrite Hr in Hrun. split; [exact Hrun|].
  split; [exact (Hall Hr)|exact Hprev].
Defined.

Lemma admission_keeps_narrow_queue_example :
  queue_len
    (run_ops quiet_env
       [OpAppend (PyAudio 1%nat); OpAppend (PyAudio 2%nat);
        OpAppendLeft (PyAudio 3%nat); OpGetNextAudio; OpAppend (PyAudio 3%nat);
        OpRemoveCurrentAudio] (narrow three_tracks))
  ≤ 1.
Proof.
  apply (proj1 (forward_queue_bound_at_admission quiet_env
           [OpAppend (PyAudio 1%nat); OpAppend (PyAudio 2%nat);
            OpAppendLeft (PyAudio 3%nat); OpGetNextAudio; OpAppend (PyAudio 3%nat);
            OpRemoveCurrentAudio] (narrow three_tracks))).
  - reflexivity.
  - vm_compute. discriminate.
Defined.



(** The scenarios of the specification, run. *)

(** Enqueue tracks 1 and 2 on an idle queue: 1 is promoted at once, 2 waits;
    [get_next_audio] then moves 1 to the history and makes 2 current. *)
Example enqueue_two_then_advance :
  let st := run_ops quiet_env
              [OpAppend (PyAudio 1%nat); OpAppend (PyAudio 2%nat)] fresh in
  let st' := run_ops quiet_env [OpGetNextAudio] st in
  (_current_audio st, queue st, posted (trace st))
  = (Some 1%nat, [2%nat],
     [PostEvent (new_audio 1%nat); PostEvent queue_update])
  ∧ (_current_audio st', queue st', previous_queue st')
    = (Some 2%nat, [], [1%nat]).
Proof. cbv zeta. split; vm_compute; reflexivity. Qed.

(** A track whose probe fails and whose refresh succeeds is promoted with
    the resolver's stream URL and title. *)
Example stale_track_is_refreshed_on_promotion :
  let st := run_ops stale_env [OpAppend (PyAudio 1%nat)] fresh in
  _current_audio st = Some 1%nat
  ∧ Audio.audio_url (heap st !!! 1%nat) = "https://cdn/fresh"
  ∧ Audio.title (heap st !!! 1%nat) = "fresh title"
  ∧ posted (trace st) = [PostEvent (new_audio 1%nat)].
Proof. cbv zeta. split_and!; vm_compute; reflexivity. Qed.

(** [reset_queue] on a busy queue empties it and publishes two
    [queue_update] events, nothing else. *)
Example reset_publishes_queue_updates_only :
  let st := snd (reset_queue playing_second) in
  (_current_audio st, queue st, previous_queue st) = (None, [], [])
  ∧ posted (trace st)
    = posted (trace playing_second)
      ++ [PostEvent queue_update; PostEvent queue_update].
Proof. cbv zeta. split; vm_compute; reflexivity. Qed.

(** A track without an end time, appended to an idle queue: [append]
    raises, the track is current all the same, and no event tells the
    playback driver; where the probe raises, [remove_current_audio] leaves
    the queue idle with track 3 waiting. *)
Example exceptions_leave_the_queue_halfway :
  (let run := append quiet_env (PyAudio 4%nat) fresh_five in
   fst run = Raise OverflowError
   ∧ _current_audio (snd run) = Some 4%nat
   ∧ posted (trace (snd run)) = [])
  ∧ (let run := remove_current_audio strict_env schemeless_waits in
     (_current_audio schemeless_waits, queue schemeless_waits)
     = (Some 1%nat, [5%nat; 3%nat])
     ∧ fst run = Raise (OtherException "MissingSchema")
     ∧ (_current_audio (snd run), queue (snd run)) = (None, [3%nat])).
Proof. cbv zeta. split_and!; vm_compute; reflexivity. Qed.

(** ** The further properties *)

Lemma idle_after_one_has_no_backlog :
  queue (run_ops quiet_env [OpAppend (PyAudio 1%nat); OpGetNextAudio]
           (init default_max_queue_size default_max_previous_queue_size
                 three_tracks)) = [].
Proof.
  apply (idle_means_nothing_waits quiet_env).
  - by intros k url e.
  - vm_compute. reflexivity.
Defined.

Lemma restart_returns_example :
  ∃ st', exec_op quiet_env OpRestartQueue playing_second = (Ok tt, st').
Proof.
  apply (calls_return quiet_env OpRestartQueue playing_second).
  - apply quiet_env_promotes_after.
  - left. vm_compute. discriminate.
Defined.

Lemma advance_example :
  ∃ st',
    get_next_audio quiet_env playing_second
    = (Ok (head (queue playing_second)), st')
    ∧ _current_audio st' = head (queue playing_second)
    ∧ queue st' = tail (queue playing_second)
    ∧ previous_queue st'
      = match _current_audio playing_second with
        | Some c =>
            (if max_previous_queue_size playing_second <? hist_len playing_second
             then tail (previous_queue playing_second)
             else previous_queue playing_second) ++ [c]
        | None => previous_queue playing_second
        end
    ∧ posted (trace st')
      = posted (trace playing_second)
        ++ [PostEvent (event_of_slot (head (queue playing_second)))].
Proof.
  apply (get_next_audio_advances quiet_env playing_second).
  - apply quiet_env_promotes_after.
  - left. vm_compute. discriminate.
Defined.

Lemma step_back_example :
  ∃ st',
    get_previous_audio quiet_env playing_second = (Ok (Some 1%nat), st')
    ∧ _current_audio st' = Some 1%nat
    ∧ previous_queue st' = []
    ∧ queue st' = slot_list (_current_audio playing_second) ++ queue playing_second
    ∧ posted (trace st')
      = posted (trace playing_second) ++ [PostEvent (new_audio 1%nat)].
Proof.
  apply (get_previous_audio_steps_back quiet_env playing_second [] 1%nat).
  - apply quiet_env_promotes_after.
  - vm_compute. reflexivity.
Defined.

Lemma skip_example :
  ∃ st',
    remove_current_audio quiet_env playing_second = (Ok (Some "two"), st')
    ∧ _current_audio st' = Some 3%nat
    ∧ posted (trace st')
      = posted (trace playing_second) ++ [PostEvent (new_audio 3%nat)].
Proof.
  destruct (remove_current_audio_forgets quiet_env playing_second)
    as [_ Hsome].
  destruct (Hsome 2%nat) as (_ & _ & _ & Hreturns); [vm_compute; reflexivity|].
  destruct Hreturns as (st' & Hrun & Hc & Hpost);
    [apply quiet_env_promotes_after|].
  exists st'. split; [exact Hrun|]. split; [exact Hc|exact Hpost].
Defined.

Lemma back_and_forth_example :
  ∃ st',
    (get_previous_audio quiet_env;; get_next_audio quiet_env) playing_second
    = (Ok (_current_audio playing_second), st')
    ∧ layout st' = layout playing_second.
Proof.
  apply (previous_then_next_restores quiet_env playing_second).
  - apply quiet_env_promotes_after.
  - vm_compute. discriminate.
  - vm_compute. discriminate.
  - intros H. vm_compute in H. discriminate H.
Defined.

Lemma forth_and_back_example :
  ∃ st',
    (get_next_audio quiet_env;; get_previous_audio quiet_env) playing_second
    = (Ok (Some 2%nat), st')
    ∧ queue st' = queue playing_second
    ∧ _current_audio st' = Some 2%nat
    ∧ previous_queue st'
      = if max_previous_queue_size playing_second <? hist_len playing_second
        then tail (previous_queue playing_second)
        else previous_queue playing_second.
Proof.
  apply (next_then_previous_history quiet_env playing_second 2%nat).
  - apply quiet_env_promotes_after.
  - vm_compute. reflexivity.
  - left. vm_compute. discriminate.
Defined.

Lemma append_two_example :
  ∃ st',
    run_appends quiet_env
      (map (λ a, (PyAudio a, false)) [2%nat; 3%nat]) playing_first
    = (Ok tt, st')
    ∧ queue st' = queue playing_first ++ [2%nat; 3%nat]
    ∧ _current_audio st' = Some 1%nat
    ∧ previous_queue st' = previous_queue playing_first
    ∧ heap st' = heap playing_first
    ∧ posted (trace st')
      = posted (trace playing_first)
        ++ replicate (length [2%nat; 3%nat]) (PostEvent queue_update).
Proof.
  apply (appends_keep_order quiet_env [2%nat; 3%nat] false playing_first 1%nat).
  - vm_compute. reflexivity.
  - vm_compute. discriminate.
Defined.

Lemma first_track_is_promoted_example :
  ∃ st',
    _add_to_queue quiet_env (PyAudio 1%nat) false fresh = (Ok tt, st')
    ∧ _current_audio st' = Some 1%nat
    ∧ queue st' = []
    ∧ previous_queue st' = previous_queue fresh
    ∧ posted (trace st') = posted (trace fresh) ++ [PostEvent (new_audio 1%nat)].
Proof.
  apply (append_on_idle_promotes quiet_env 1%nat false fresh).
  - apply quiet_env_promotes.
  - reflexivity.
  - reflexivity.
  - reflexivity.
Defined.

Lemma same_navigation_in_two_worlds :
  layout (run_ops quiet_env
            [OpAppend (PyAudio 1%nat); OpAppend (PyAudio 2%nat); OpGetNextAudio;
             OpGetPreviousAudio; OpRestartQueue] fresh)
  = layout (run_ops stale_env
              [OpAppend (PyAudio 1%nat); OpAppend (PyAudio 2%nat); OpGetNextAudio;
               OpGetPreviousAudio; OpRestartQueue] fresh_elsewhere).
Proof.
  apply (proj1 (promoting_worlds_agree_on_layout quiet_env stale_env _ fresh
                  fresh_elsewhere eq_refl quiet_env_promotes
                  stale_env_promotes)).
Defined.

Lemma seek_example :
  ∃ src,
    Voice.go_to obliging_world 42 streaming_first
    = (Voice.Ok tt,
       Voice.mkState (Some 0%nat) (Some 1%nat) true three_tracks
         [Voice.IsPlaying; Voice.NewSource src; Voice.SetSource src])
    ∧ Voice.source src = "https://cdn/1"
    ∧ Voice.before_options src = "-reconnect 1 -reconnect_streamed 1 -ss 42".
Proof.
  destruct (go_to_swaps_the_source obliging_world 42 streaming_first 0%nat 1%nat
              eq_refl eq_refl eq_refl eq_refl) as [Hrun Hseek].
  eexists. split; [exact Hrun|]. split; [reflexivity|].
  apply Hseek. discriminate.
Defined.
